(** * Cobweb concept formation: a shallow embedding of [src/cobweb.py]

    Modelling choices, read against the Python source:
    - a [Cobweb] node is the triple ([count], [av_counts], [children]);
      [av_counts] is the nested dict [attr -> value -> int] as a nested
      [gmap]; the [parent] back-pointer and the gensym'd [concept_name]
      are not modelled (no claim reads them);
    - node identity ([c == child], [children.remove(best1)]) is position
      in the parent's [children] list: the classes define no [__eq__], so
      Python compares children by identity, and a child object occurs
      once in a children list;
    - Python floats are modelled by exact rationals [Q];
    - an instance is a dict [attr -> value] with string values;
    - the node returned by [cobweb]/[ifit] is given by its path (child
      indices) from the node the call started at. *)

From Stdlib Require Import QArith Lqa String List Sorted.
From stdpp Require Import gmap strings list fin_maps.

Set Warnings "-register-all".


Inductive Cobweb := mkNode {
  count : nat;
  av_counts : gmap string (gmap string nat);
  children : list Cobweb }.

Abbreviation instance := (gmap string string).

(** [Cobweb()]: a fresh node with no counts and no children. *)
Definition new_node : Cobweb := mkNode 0 ∅ [].

Definition with_children (n : Cobweb) (cs : list Cobweb) : Cobweb :=
  mkNode (count n) (av_counts n) cs.

Definition qnat (k : nat) : Q := inject_Z (Z.of_nat k).

(** Python's [min_cu] class variable. *)
Definition min_cu : Q := 0.

(** [self.av_counts[attr][val]], reading 0 for a missing entry. *)
Definition av_get (av : gmap string (gmap string nat)) (attr val : string) : nat :=
  match av !! attr with
  | Some vals => default 0 (vals !! val)
  | None => 0
  end.

(** One step of the counting loops:
    [self.av_counts[attr] = self.av_counts.setdefault(attr,{})]
    [self.av_counts[attr][val] = self.av_counts[attr].get(val,0) + c] *)
Definition av_add (av : gmap string (gmap string nat)) (attr val : string) (c : nat)
  : gmap string (gmap string nat) :=
  let vals := default ∅ (av !! attr) in
  <[attr := <[val := default 0 (vals !! val) + c]> vals]> av.

(** [increment_counts(instance)] *)
Definition increment_counts (n : Cobweb) (inst : instance) : Cobweb :=
  mkNode (S (count n))
    (map_fold (fun attr val acc => av_add acc attr val 1) (av_counts n) inst)
    (children n).

(** [update_counts_from_node(node)] *)
Definition update_counts_from_node (self node : Cobweb) : Cobweb :=
  mkNode (count self + count node)
    (map_fold (fun attr vals acc =>
                 map_fold (fun val c acc' => av_add acc' attr val c) acc vals)
              (av_counts self) (av_counts node))
    (children self).

(** The copy constructor [Cobweb(otherTree)]: counts copied, children
    copied recursively. *)
Fixpoint copy_node (n : Cobweb) : Cobweb :=
  match n with
  | mkNode c av cs =>
      let t := update_counts_from_node new_node (mkNode c av []) in
      mkNode (count t) (av_counts t) (map copy_node cs)
  end.

(** [shallow_copy()] *)
Definition shallow_copy (n : Cobweb) : Cobweb :=
  with_children (update_counts_from_node new_node n)
    (map (update_counts_from_node new_node) (children n)).

(** [expected_correct_guesses()] *)
Definition expected_correct_guesses (n : Cobweb) : Q :=
  map_fold (fun attr vals acc =>
              map_fold (fun val c acc' =>
                          let prob := (qnat c / qnat (count n))%Q in
                          (acc' + prob * prob)%Q) acc vals)
           0%Q (av_counts n).

(** [category_utility()] *)
Definition category_utility (n : Cobweb) : Q :=
  match children n with
  | [] => 0%Q
  | cs =>
      (fold_left (fun cu child =>
                   let p_of_child := qnat (count child) / qnat (count n) in
                   cu + p_of_child * (expected_correct_guesses child
                                      - expected_correct_guesses n))
                cs 0
      / qnat (length cs))%Q
  end.

(** The children list without the children at positions [ks]
    ([children.remove(c)] and [if c == best: continue]). *)
Fixpoint remove_at_from (ks : list nat) (k : nat) (cs : list Cobweb) : list Cobweb :=
  match cs with
  | [] => []
  | c :: cs' =>
      if existsb (Nat.eqb k) ks then remove_at_from ks (S k) cs'
      else c :: remove_at_from ks (S k) cs'
  end.

Definition remove_at (ks : list nat) (cs : list Cobweb) : list Cobweb :=
  remove_at_from ks 0 cs.

Definition child_at (n : Cobweb) (i : nat) : Cobweb := nth i (children n) new_node.

(** [cu_for_insert(child, instance)], [child] being child number [i]. *)
Definition cu_for_insert (n : Cobweb) (i : nat) (inst : instance) : Q :=
  let temp := increment_counts (update_counts_from_node new_node n) inst in
  let kids := imap (fun k c =>
                      let temp_child := update_counts_from_node new_node c in
                      if Nat.eqb k i then increment_counts temp_child inst
                      else temp_child) (children n) in
  category_utility (with_children temp kids).

(** [create_new_child(instance)]: the parent and the new child's index. *)
Definition create_new_child (n : Cobweb) (inst : instance) : Cobweb * nat :=
  (with_children n (children n ++ [increment_counts new_node inst]),
   length (children n)).

(** [create_child_with_current_counts()]: does nothing (returns [None])
    when [count] is 0. *)
Definition create_child_with_current_counts (n : Cobweb) : Cobweb * option nat :=
  if Nat.ltb 0 (count n)
  then (with_children n (children n ++ [copy_node n]), Some (length (children n)))
  else (n, None).

(** [cu_for_new_child(instance)] *)
Definition cu_for_new_child (n : Cobweb) (inst : instance) : Q :=
  let temp := increment_counts (shallow_copy n) inst in
  category_utility (fst (create_new_child temp inst)).

(** [merge(best1, best2)]: the parent and the index of the merged child. *)
Definition merge (n : Cobweb) (i j : nat) : Cobweb * nat :=
  let best1 := child_at n i in
  let best2 := child_at n j in
  let new_child :=
    with_children (update_counts_from_node (update_counts_from_node new_node best1) best2)
      [best1; best2] in
  let cs := remove_at [i; j] (children n) ++ [new_child] in
  (with_children n cs, pred (length cs)).

(** [cu_for_merge(best1, best2, instance)] *)
Definition cu_for_merge (n : Cobweb) (i j : nat) (inst : instance) : Q :=
  let temp := increment_counts (update_counts_from_node new_node n) inst in
  let new_child :=
    increment_counts
      (update_counts_from_node (update_counts_from_node new_node (child_at n i))
         (child_at n j)) inst in
  let others := map (update_counts_from_node new_node) (remove_at [i; j] (children n)) in
  category_utility (with_children temp (new_child :: others)).

(** [split(best)] *)
Definition split (n : Cobweb) (i : nat) : Cobweb :=
  with_children n (remove_at [i] (children n) ++ children (child_at n i)).

(** [cu_for_fringe_split(instance)] *)
Definition cu_for_fringe_split (n : Cobweb) (inst : instance) : Q :=
  let temp := update_counts_from_node new_node n in
  let temp := fst (create_child_with_current_counts temp) in
  let temp := increment_counts temp inst in
  category_utility (fst (create_new_child temp inst)).

(** [cu_for_split(best)] *)
Definition cu_for_split (n : Cobweb) (i : nat) : Q :=
  let temp := update_counts_from_node new_node n in
  let kids := map (update_counts_from_node new_node)
                  (remove_at [i] (children n) ++ children (child_at n i)) in
  category_utility (with_children temp kids).

(** Outcome of code that may raise. *)
Inductive result (A : Type) :=
| Ok (a : A)
| Raise (msg : string).
Arguments Ok {A} a.
Arguments Raise {A} msg.

Definition Qltb (x y : Q) : bool :=
  match Qcompare x y with Lt => true | _ => false end.

(** [list.sort(reverse=True)] as a stable insertion sort: [lt y x] says
    that [x] must come before [y]; an element inserted later goes after
    the elements it does not beat, so equal elements keep their order. *)
Fixpoint insert_desc {A} (lt : A -> A -> bool) (x : A) (l : list A) : list A :=
  match l with
  | [] => [x]
  | y :: l' => if lt y x then x :: l else y :: insert_desc lt x l'
  end.

Definition sort_desc {A} (lt : A -> A -> bool) (l : list A) : list A :=
  fold_left (fun acc x => insert_desc lt x acc) l [].

(** [two_best_children(instance)]: [(cu, child index)] pairs. *)
Definition two_best_children (n : Cobweb) (inst : instance)
  : result ((Q * nat) * option (Q * nat)) :=
  match children n with
  | [] => Raise "No children!"
  | cs =>
      let children_cu := imap (fun k _ => (cu_for_insert n k inst, k)) cs in
      (* children_cu.sort(key=lambda x: x[0], reverse=True) *)
      match sort_desc (fun y x => Qltb (fst y) (fst x)) children_cu with
      | [x] => Ok (x, None)
      | x :: y :: _ => Ok (x, Some y)
      | [] => Raise "IndexError"
      end
  end.

(** Python's ordering of [(float, str)] tuples: by the number, then by the
    string. *)
Definition tuple_lt (a b : Q * string) : bool :=
  match Qcompare (fst a) (fst b) with
  | Lt => true
  | Gt => false
  | Eq => match String.compare (snd a) (snd b) with Lt => true | _ => false end
  end.

(** The candidate list built by [get_best_operation] (all four operations
    in [possible_ops]). *)
Definition candidate_operations (n : Cobweb) (inst : instance)
    (best1 : Q * nat) (best2 : option (Q * nat)) : list (Q * string) :=
  let '(best1_cu, i) := best1 in
  [(best1_cu, "best"%string); (cu_for_new_child n inst, "new"%string)]
  ++ match best2 with
     | Some (_, j) =>
         if Nat.ltb 2 (length (children n))
         then [(cu_for_merge n i j inst, "merge"%string)] else []
     | None => []
     end
  ++ (if Nat.ltb 0 (length (children (child_at n i)))
      then [(cu_for_split n i, "split"%string)] else []).

(** [get_best_operation]: [operations.sort(reverse=True); operations[0]]. *)
Definition get_best_operation (n : Cobweb) (inst : instance)
    (best1 : Q * nat) (best2 : option (Q * nat)) : Q * string :=
  match sort_desc tuple_lt (candidate_operations n inst best1 best2) with
  | x :: _ => x
  | [] => (0%Q, ""%string)
  end.

(** The [while current:] loop of [cobweb(instance)], started at
    [current]: the new subtree at [current] and the path (from [current])
    of the node returned.  Each iteration spends one unit of [fuel];
    [None] is an exhausted fuel or an exception. *)
Fixpoint cobweb (fuel : nat) (current : Cobweb) (inst : instance)
  : option (Cobweb * list nat) :=
  match fuel with
  | O => None
  | S fuel' =>
    match children current with
    | [] =>
        if Qle_bool (cu_for_fringe_split current inst) min_cu
        then Some (increment_counts current inst, [])
        else
          let c1 := fst (create_child_with_current_counts current) in
          let c2 := increment_counts c1 inst in
          let '(c3, k) := create_new_child c2 inst in
          Some (c3, [k])
    | _ :: _ =>
        match two_best_children current inst with
        | Raise _ => None
        | Ok (best1, best2) =>
            let '(action_cu, best_action) := get_best_operation current inst best1 best2 in
            let i := snd best1 in
            if Qle_bool action_cu min_cu then
              Some (with_children (increment_counts current inst) [], [])
            else if String.eqb best_action "best" then
              let c1 := increment_counts current inst in
              match cobweb fuel' (child_at c1 i) inst with
              | Some (b, p) => Some (with_children c1 (<[i := b]> (children c1)), i :: p)
              | None => None
              end
            else if String.eqb best_action "new" then
              let '(c2, k) := create_new_child (increment_counts current inst) inst in
              Some (c2, [k])
            else if String.eqb best_action "merge" then
              match best2 with
              | Some (_, j) =>
                  let '(c2, k) := merge (increment_counts current inst) i j in
                  match cobweb fuel' (child_at c2 k) inst with
                  | Some (m, p) => Some (with_children c2 (<[k := m]> (children c2)), k :: p)
                  | None => None
                  end
              | None => None
              end
            else if String.eqb best_action "split" then
              cobweb fuel' (split current i) inst
            else None
        end
    end
  end.

(** [num_concepts()] *)
Fixpoint num_concepts (n : Cobweb) : nat :=
  match n with
  | mkNode _ _ cs =>
      S ((fix go (l : list Cobweb) : nat :=
            match l with [] => 0 | c :: l' => num_concepts c + go l' end) cs)
  end.

(** [ifit(instance)]: the new tree and the path of the returned node.
    The loop needs at most [num_concepts] iterations (see [ifit_total]). *)
Definition ifit (t : Cobweb) (inst : instance) : option (Cobweb * list nat) :=
  cobweb (num_concepts t) t inst.

(** [fit(list_of_instances)]: the tree after each [ifit] in turn. *)
Fixpoint fit (t : Cobweb) (insts : list instance) : option Cobweb :=
  match insts with
  | [] => Some t
  | inst :: rest =>
      match ifit t inst with
      | Some (t', _) => fit t' rest
      | None => None
      end
  end.

(** The node reached by following a path of child indices. *)
Fixpoint subtree (n : Cobweb) (p : list nat) : option Cobweb :=
  match p with
  | [] => Some n
  | i :: p' => match children n !! i with Some c => subtree c p' | None => None end
  end.

(** [cobweb_categorize(instance)]: the path of the leaf reached by always
    descending into [best1]. *)
Fixpoint cobweb_categorize (current : Cobweb) (inst : instance) {struct current} : list nat :=
  match current with
  | mkNode _ _ [] => []
  | mkNode _ _ cs =>
      match two_best_children current inst with
      | Ok ((_, i), _) =>
          i :: (fix pick (l : list Cobweb) (k : nat) {struct l} : list nat :=
                  match l, k with
                  | c :: _, O => cobweb_categorize c inst
                  | _ :: l', S k' => pick l' k'
                  | [], _ => []
                  end) cs i
      | Raise _ => []
      end
  end.

(** [get_probability(attr, val)] *)
Definition get_probability (n : Cobweb) (attr val : string) : Q :=
  match av_counts n !! attr with
  | Some vals =>
      match vals !! val with
      | Some c => (qnat c / qnat (count n))%Q
      | None => 0%Q
      end
  | None => 0%Q
  end.

(** ** Invariants read by the claims *)

(** [P] holds at every node of the tree. *)
Fixpoint all_nodes (P : Cobweb -> Prop) (n : Cobweb) : Prop :=
  P n /\
  match n with
  | mkNode _ _ cs => fold_right (fun c acc => all_nodes P c /\ acc) True cs
  end.

(** The sum of [f] over a list of children. *)
Definition sum_children (f : Cobweb -> nat) (cs : list Cobweb) : nat :=
  fold_right (fun c acc => f c + acc) 0 cs.

(** The property checked by [verify_counts] at one node: a node with
    children has the sum of its children's [count], and, for every
    attribute/value pair, the sum of their counts for the pair. *)
Definition counts_conserved (n : Cobweb) : Prop :=
  children n <> [] ->
  count n = sum_children count (children n) /\
  forall attr val,
    av_get (av_counts n) attr val
    = sum_children (fun c => av_get (av_counts c) attr val) (children n).

(** A node with children has at least two of them. *)
Definition two_plus_children (n : Cobweb) : Prop :=
  children n = [] \/ 2 <= length (children n).

(** A node that has seen no instance has no attribute counts. *)
Definition zero_count_empty (n : Cobweb) : Prop :=
  count n = 0 -> av_counts n = ∅.

(** How often [instance] contributes to the pair [(attr, val)]. *)
Definition inst_occ (inst : instance) (attr val : string) : nat :=
  match inst !! attr with
  | Some v => if String.eqb v val then 1 else 0
  | None => 0
  end.

(** The invariants maintained by [cobweb] at every node. *)
Definition node_ok (n : Cobweb) : Prop :=
  counts_conserved n /\ zero_count_empty n /\ two_plus_children n.

(** What [remove_at_from ks k] drops from the sum of [f]. *)
Fixpoint dropped_sum (f : Cobweb -> nat) (ks : list nat) (k : nat) (cs : list Cobweb) : nat :=
  match cs with
  | [] => 0
  | c :: cs' => (if existsb (Nat.eqb k) ks then f c else 0) + dropped_sum f ks (S k) cs'
  end.

(** The four names in [possible_ops]. *)
Definition op_names : list string := ["best"; "new"; "merge"; "split"]%string.

(** The specification's formulas, for comparison with the code. *)

(** All stored [(attr, val, count)] triples. *)
Definition av_pairs (av : gmap string (gmap string nat)) : list (string * string * nat) :=
  concat (map (fun '(attr, vals) => map (fun '(val, c) => (attr, val, c)) (map_to_list vals))
              (map_to_list av)).

(** Sum over the stored pairs of [(count(attr,val)/count)^2]. *)
Definition ecg_spec (n : Cobweb) : Q :=
  fold_right Qplus 0%Q
    (map (fun '(_, _, c) => ((qnat c / qnat (count n)) ^ 2)%Q) (av_pairs (av_counts n))).

(** [(1/k) * sum over children of P(child) * (ECG(child) - ECG(node))]. *)
Definition cu_spec (n : Cobweb) : Q :=
  match children n with
  | [] => 0%Q
  | cs =>
      (1 / qnat (length cs) *
       fold_right Qplus 0%Q
         (map (fun child => qnat (count child) / qnat (count n) *
                              (expected_correct_guesses child - expected_correct_guesses n)) cs))%Q
  end.

(** The tie-break order of [(cu, name)] tuples sorted with [reverse=True]:
    a greater name wins, so [split > new > merge > best]. *)
Definition op_rank (op : string) : nat :=
  if String.eqb op "split" then 3
  else if String.eqb op "new" then 2
  else if String.eqb op "merge" then 1
  else 0.

(** Concrete inputs. *)
Definition red_inst : instance := {[ "color"%string := "red"%string ]}.
Definition blue_inst : instance := {[ "color"%string := "blue"%string ]}.
Definition red_leaf : Cobweb := mkNode 1 {[ "color"%string := {[ "red"%string := 1 ]} ]} [].
(** A node with two identical children, seen twice with color red. *)
Definition tie_node : Cobweb :=
  mkNode 2 {[ "color"%string := {[ "red"%string := 2 ]} ]} [red_leaf; red_leaf].

(** ** The remaining methods of [Cobweb] *)


(** [exact_match(instance)]: [Ok false] is an early [return False]; the
    division by [count] raises when [count] is 0.  The loops run over the
    maps' key order. *)
Definition exact_match (n : Cobweb) (inst : instance) : result bool :=
  let av := av_counts n in
  let first :=
    fold_left (fun acc '(attr, v) =>
                 match acc with
                 | Ok true =>
                     match av !! attr with
                     | None => Ok false
                     | Some vals =>
                         match vals !! v with
                         | None => Ok false
                         | Some c =>
                             if Nat.eqb (count n) 0 then Raise "ZeroDivisionError"
                             else if Qeq_bool (qnat c / qnat (count n)) 1 then Ok true
                             else Ok false
                         end
                     end
                 | r => r
                 end) (map_to_list inst) (Ok true) in
  match first with
  | Ok true =>
      Ok (forallb (fun '(attr, _) => bool_decide (is_Some (inst !! attr))) (map_to_list av))
  | r => r
  end.

(** The inner loops of [verify_counts] for one child: subtract the
    child's counts from [temp]; [None] is the failed [assert attr in temp],
    or the [print(val.concept_name)] on a string (an [AttributeError]) when
    [val] is missing from [temp[attr]]. *)
Definition sub_counts (temp : gmap string (gmap string Z))
    (cav : gmap string (gmap string nat)) : option (gmap string (gmap string Z)) :=
  map_fold (fun attr vals acc =>
              match acc with
              | None => None
              | Some t =>
                  match t !! attr with
                  | None => None
                  | Some tv =>
                      match map_fold (fun val c acc' =>
                                        match acc' with
                                        | None => None
                                        | Some tv' =>
                                            match tv' !! val with
                                            | None => None
                                            | Some x => Some (<[val := (x - Z.of_nat c)%Z]> tv')
                                            end
                                        end) (Some tv) vals with
                      | None => None
                      | Some tv' => Some (<[attr := tv']> t)
                      end
                  end
              end) (Some temp) cav.

(** The checks [verify_counts] makes at one node ([true]: none fails). *)
Definition verify_node (n : Cobweb) : bool :=
  match children n with
  | [] => true
  | cs =>
      let temp : gmap string (gmap string Z) := fmap (fmap (M := gmap string) Z.of_nat) (av_counts n) in
      match fold_left (fun acc child =>
                         match acc with
                         | None => None
                         | Some (tc, t) =>
                             match sub_counts t (av_counts child) with
                             | None => None
                             | Some t' => Some ((tc - Z.of_nat (count child))%Z, t')
                             end
                         end) cs (Some (Z.of_nat (count n), temp)) with
      | None => false
      | Some (tc, t) =>
          Z.eqb tc 0 &&
          forallb (fun '(_, tv) => forallb (fun '(_, x) => Z.eqb x 0) (map_to_list tv))
                  (map_to_list t)
      end
  end.

(** [verify_counts()]: [Some tt] when it returns, [None] when it raises. *)
Fixpoint verify_counts (n : Cobweb) : option unit :=
  match n with
  | mkNode c av cs =>
      if verify_node (mkNode c av cs) then
        (fix go (l : list Cobweb) : option unit :=
           match l with
           | [] => Some tt
           | x :: l' => match verify_counts x with Some _ => go l' | None => None end
           end) cs
      else None
  end.

(** The concept [cobweb_categorize(instance)] returns (its path is always
    valid; [t] itself would be returned for an invalid one). *)
Definition concept_of (t : Cobweb) (inst : instance) : Cobweb :=
  default t (subtree t (cobweb_categorize t inst)).

(** [predict(instance)], with [random.choice] given as [choice]
    ([choice([])] raises [IndexError]). *)
Definition predict (choice : list string -> string) (t : Cobweb) (inst : instance)
  : result (gmap string string) :=
  let concept := concept_of t inst in
  map_fold (fun attr vals acc =>
              match acc with
              | Raise m => Raise m
              | Ok prediction =>
                  if bool_decide (is_Some (prediction !! attr)) then Ok prediction
                  else
                    match concat (map (fun '(val, c) => repeat val c) (map_to_list vals)) with
                    | [] => Raise "IndexError"
                    | values => Ok (<[attr := choice values]> prediction)
                    end
              end) (Ok inst) (av_counts concept).

(** [concept_attr_value(instance, attr, val)] *)
Definition concept_attr_value (t : Cobweb) (inst : instance) (attr val : string) : Q :=
  get_probability (concept_of t inst) attr val.

(** [flexible_prediction(instance, guessing)]: [sum(probs) / len(probs)]
    raises on an empty instance. *)
Definition flexible_prediction (t : Cobweb) (inst : instance) (guessing : bool) : result Q :=
  let probs := map (fun '(attr, v) =>
                      if guessing then get_probability t attr v
                      else concept_attr_value t (delete attr inst) attr v) (map_to_list inst) in
  if Nat.eqb (length probs) 0 then Raise "ZeroDivisionError"
  else Ok (fold_right Qplus 0 probs / qnat (length probs))%Q.

(** ** Auxiliary notions for the properties below *)


(** No stored inner dict is empty and every stored count is positive. *)
Definition av_ok (av : gmap string (gmap string nat)) : Prop :=
  forall attr vals, av !! attr = Some vals ->
    vals <> ∅ /\ forall val c, vals !! val = Some c -> 0 < c.

(** [temp[attr][val]], absent when either key is. *)
Definition lookup2 {A} (t : gmap string (gmap string A)) (attr val : string) : option A :=
  t !! attr ≫= fun tv => tv !! val.

(** * Lemmas *)

Section FoldLemmas.

Lemma sum_list_with_perm {A} (f : A -> nat) (l l' : list A) :
  l ≡ₚ l' -> sum_list_with f l = sum_list_with f l'.
Proof. induction 1; simpl; lia. Qed.

Lemma map_fold_measure {A B} (f : string -> A -> B -> B) (g : B -> nat)
    (w : string -> A -> nat) (b : B) (m : gmap string A) :
  (forall k x acc, g (f k x acc) = g acc + w k x) ->
  g (map_fold f b m) = g b + sum_list_with (fun kx => w kx.1 kx.2) (map_to_list m).
Proof.
  intros Hf. rewrite map_fold_foldr.
  induction (map_to_list m) as [|[k x] l IH]; simpl; [lia|].
  rewrite Hf, IH. lia.
Qed.

Lemma sum_map_to_list_key {A} (m : gmap string A) (a : string) (h : A -> nat) :
  sum_list_with (fun kx => if String.eqb kx.1 a then h kx.2 else 0) (map_to_list m)
  = match m !! a with Some x => h x | None => 0 end.
Proof.
  induction m as [|i x m Hi IH] using map_ind.
  - rewrite map_to_list_empty, lookup_empty. reflexivity.
  - rewrite (sum_list_with_perm _ _ _ (map_to_list_insert m i x Hi)). simpl.
    destruct (String.eqb_spec i a) as [->|Hne].
    + rewrite lookup_insert_eq, IH, Hi. lia.
    + rewrite lookup_insert_ne by congruence. rewrite IH. lia.
Qed.

Lemma sum_list_with_zero {A} (l : list A) :
  sum_list_with (fun _ => 0) l = 0.
Proof. induction l; simpl; lia. Qed.

End FoldLemmas.

Lemma av_get_av_add av k x c a v :
  av_get (av_add av k x c) a v
  = av_get av a v + (if String.eqb k a then if String.eqb x v then c else 0 else 0).
Proof.
  unfold av_get, av_add.
  destruct (String.eqb_spec k a) as [->|Hk].
  - rewrite lookup_insert_eq.
    destruct (String.eqb_spec x v) as [->|Hx].
    + rewrite lookup_insert_eq. destruct (av !! a); simpl; [|reflexivity].
      destruct (g !! v); simpl; lia.
    + rewrite lookup_insert_ne by congruence.
      destruct (av !! a); simpl; [lia|]. rewrite lookup_empty. reflexivity.
  - rewrite lookup_insert_ne by congruence. lia.
Qed.

Lemma av_get_empty a v : av_get ∅ a v = 0.
Proof. reflexivity. Qed.

Lemma av_get_increment n inst a v :
  av_get (av_counts (increment_counts n inst)) a v
  = av_get (av_counts n) a v + inst_occ inst a v.
Proof.
  unfold increment_counts; simpl.
  rewrite (map_fold_measure _ (fun acc => av_get acc a v)
             (fun k x => if String.eqb k a then if String.eqb x v then 1 else 0 else 0)).
  - f_equal. unfold inst_occ.
    apply (sum_map_to_list_key inst a (fun x => if String.eqb x v then 1 else 0)).
  - intros. apply av_get_av_add.
Qed.

Lemma av_get_update self node a v :
  av_get (av_counts (update_counts_from_node self node)) a v
  = av_get (av_counts self) a v + av_get (av_counts node) a v.
Proof.
  unfold update_counts_from_node; simpl.
  rewrite (map_fold_measure _ (fun acc => av_get acc a v)
             (fun k vals => if String.eqb k a then default 0 (vals !! v) else 0)).
  - f_equal. unfold av_get.
    apply (sum_map_to_list_key (av_counts node) a (fun vals => default 0 (vals !! v))).
  - intros k vals acc.
    rewrite (map_fold_measure _ (fun acc => av_get acc a v)
               (fun x c => if String.eqb k a then if String.eqb x v then c else 0 else 0)).
    + f_equal. destruct (String.eqb k a).
      * rewrite (sum_map_to_list_key vals v (fun c => c)).
        destruct (vals !! v); reflexivity.
      * apply sum_list_with_zero.
    + intros. apply av_get_av_add.
Qed.

Section TreeLemmas.

Lemma fold_and_Forall (Q : Cobweb -> Prop) (l : list Cobweb) :
  fold_right (fun c acc => Q c /\ acc) True l <-> Forall Q l.
Proof.
  induction l as [|c l IH]; simpl.
  - split; auto.
  - rewrite Forall_cons, IH. tauto.
Qed.

Lemma all_nodes_iff P n :
  all_nodes P n <-> P n /\ Forall (all_nodes P) (children n).
Proof. destruct n as [c av cs]. simpl. rewrite fold_and_Forall. tauto. Qed.

Lemma sum_children_app f l1 l2 :
  sum_children f (l1 ++ l2) = sum_children f l1 + sum_children f l2.
Proof. induction l1; simpl; lia. Qed.

Lemma sum_children_one (l : list Cobweb) : sum_children (fun _ => 1) l = length l.
Proof. induction l; simpl; lia. Qed.

Lemma sum_children_insert f (cs : list Cobweb) i b :
  i < length cs ->
  sum_children f (<[i := b]> cs) + f (nth i cs new_node) = sum_children f cs + f b.
Proof.
  revert i. induction cs as [|c cs IH]; intros i Hi; simpl in *; [lia|].
  destruct i; simpl; [lia|]. specialize (IH i ltac:(lia)). lia.
Qed.

Lemma sum_remove_at_from f ks k cs :
  sum_children f cs = sum_children f (remove_at_from ks k cs) + dropped_sum f ks k cs.
Proof.
  revert k. induction cs as [|c cs IH]; intros k; simpl; [lia|].
  destruct (existsb (Nat.eqb k) ks); simpl; rewrite (IH (S k)); lia.
Qed.

Lemma dropped_sum_past f i k cs : i < k -> dropped_sum f [i] k cs = 0.
Proof.
  revert k. induction cs as [|c cs IH]; intros k Hk; simpl; [lia|].
  destruct (Nat.eqb_spec k i); [lia|]. simpl. rewrite IH; lia.
Qed.

Lemma dropped_sum_one f i k cs :
  k <= i -> i < k + length cs -> dropped_sum f [i] k cs = f (nth (i - k) cs new_node).
Proof.
  revert k. induction cs as [|c cs IH]; intros k H1 H2; simpl in *; [lia|].
  destruct (Nat.eqb_spec k i) as [<-|Hne]; simpl.
  - rewrite dropped_sum_past by lia. rewrite Nat.sub_diag. lia.
  - rewrite IH by lia. replace (i - k) with (S (i - S k)) by lia. reflexivity.
Qed.

Lemma dropped_sum_two f i j k cs :
  i <> j -> dropped_sum f [i; j] k cs = dropped_sum f [i] k cs + dropped_sum f [j] k cs.
Proof.
  intros Hij. revert k. induction cs as [|c cs IH]; intros k; simpl; [lia|].
  rewrite IH. destruct (Nat.eqb_spec k i), (Nat.eqb_spec k j); simpl; lia.
Qed.

Lemma sum_remove_one f cs i :
  i < length cs ->
  sum_children f cs = sum_children f (remove_at [i] cs) + f (nth i cs new_node).
Proof.
  intros Hi. unfold remove_at. rewrite (sum_remove_at_from f [i] 0 cs).
  rewrite dropped_sum_one by lia. rewrite Nat.sub_0_r. reflexivity.
Qed.

Lemma sum_remove_two f cs i j :
  i < length cs -> j < length cs -> i <> j ->
  sum_children f cs
  = sum_children f (remove_at [i; j] cs) + f (nth i cs new_node) + f (nth j cs new_node).
Proof.
  intros Hi Hj Hij. unfold remove_at. rewrite (sum_remove_at_from f [i; j] 0 cs).
  rewrite dropped_sum_two by exact Hij.
  rewrite !dropped_sum_one by lia. rewrite !Nat.sub_0_r. lia.
Qed.

Lemma Forall_remove_at_from (P : Cobweb -> Prop) ks k cs :
  Forall P cs -> Forall P (remove_at_from ks k cs).
Proof.
  revert k. induction cs as [|c cs IH]; intros k H; simpl; [constructor|].
  apply Forall_cons in H as [Hc H].
  destruct (existsb (Nat.eqb k) ks); auto.
Qed.

Lemma Forall_nth_node (P : Cobweb -> Prop) cs i :
  Forall P cs -> i < length cs -> P (nth i cs new_node).
Proof.
  intros H Hi. rewrite Forall_forall in H. apply H. apply list_elem_of_In, nth_In. exact Hi.
Qed.

Lemma num_concepts_eq n : num_concepts n = S (sum_children num_concepts (children n)).
Proof.
  destruct n as [c av cs]. reflexivity.
Qed.

End TreeLemmas.

Section SortLemmas.

Lemma insert_desc_perm {A} (lt : A -> A -> bool) x l : insert_desc lt x l ≡ₚ x :: l.
Proof.
  induction l as [|y l IH]; simpl; [done|].
  destruct (lt y x); [done|].
  rewrite IH. apply perm_swap.
Qed.

Lemma sort_desc_perm {A} (lt : A -> A -> bool) l : sort_desc lt l ≡ₚ l.
Proof.
  unfold sort_desc.
  assert (H : forall acc, fold_left (fun acc x => insert_desc lt x acc) l acc ≡ₚ l ++ acc).
  { induction l as [|x l IH]; intros acc; simpl; [done|].
    rewrite IH, insert_desc_perm. symmetry. apply Permutation_middle. }
  rewrite H. rewrite app_nil_r. done.
Qed.

End SortLemmas.

Section ChoiceLemmas.

Lemma imap_snd_seq (f : nat -> Cobweb -> Q * nat) s (cs : list Cobweb) :
  (forall k c, snd (f k c) = s + k) -> map snd (imap f cs) = seq s (length cs).
Proof.
  revert f s. induction cs as [|c cs IH]; intros f s Hf; simpl; [done|].
  rewrite Hf, Nat.add_0_r. f_equal. apply IH. intros k c'. simpl. rewrite Hf. lia.
Qed.

Lemma imap_Forall {B} (f : nat -> Cobweb -> B) (cs : list Cobweb) :
  Forall (fun x => exists k c, cs !! k = Some c /\ x = f k c) (imap f cs).
Proof.
  revert f. induction cs as [|c cs IH]; intros f; simpl; constructor.
  - exists 0, c. done.
  - specialize (IH (fun k => f (S k))).
    eapply Forall_impl; [exact IH|]. simpl.
    intros x (k & c' & Hk & ->). exists (S k), c'. done.
Qed.

Lemma two_best_children_ok n inst b1 ob2 :
  two_best_children n inst = Ok (b1, ob2) ->
  b1.2 < length (children n) /\ b1.1 = cu_for_insert n b1.2 inst /\
  (forall b2, ob2 = Some b2 ->
     b2.2 < length (children n) /\ b2.1 = cu_for_insert n b2.2 inst /\ b2.2 <> b1.2).
Proof.
  unfold two_best_children.
  destruct (children n) as [|c cs] eqn:Ec; [discriminate|].
  set (L := imap (fun k _ => (cu_for_insert n k inst, k)) (c :: cs)).
  pose proof (sort_desc_perm (fun y x => Qltb (fst y) (fst x)) L) as Hperm.
  assert (HF : Forall (fun x => x.2 < length (c :: cs) /\ x.1 = cu_for_insert n x.2 inst)
                 (sort_desc (fun y x => Qltb (fst y) (fst x)) L)).
  { rewrite Hperm. eapply Forall_impl; [apply imap_Forall|].
    intros x (k & c' & Hk & ->). simpl. split; [|done].
    apply lookup_lt_Some in Hk. exact Hk. }
  assert (HN : NoDup (map snd (sort_desc (fun y x => Qltb (fst y) (fst x)) L))).
  { rewrite Hperm. unfold L. rewrite (imap_snd_seq _ 0); [apply NoDup_seq|done]. }
  destruct (sort_desc _ L) as [|x [|y rest]]; intros H; inversion H; subst; clear H.
  - apply Forall_cons in HF as [[Hx1 Hx2] _]. split; [done|]. split; [done|].
    intros b2 Hb. discriminate.
  - apply Forall_cons in HF as [[Hx1 Hx2] HF]. apply Forall_cons in HF as [[Hy1 Hy2] _].
    split; [done|]. split; [done|]. intros b2 Hb. inversion Hb; subst.
    split; [done|]. split; [done|].
    simpl in HN. apply NoDup_cons in HN as [HN _]. intros Heq. apply HN.
    rewrite Heq. left.
Qed.

Lemma two_best_children_nonempty n inst :
  children n <> [] -> exists b1 ob2, two_best_children n inst = Ok (b1, ob2).
Proof.
  intros Hne. unfold two_best_children.
  destruct (children n) as [|c cs] eqn:Ec; [done|].
  pose proof (sort_desc_perm (fun y x => Qltb (fst y) (fst x))
                (imap (fun k _ => (cu_for_insert n k inst, k)) (c :: cs))) as Hperm.
  destruct (sort_desc _ _) as [|x [|y rest]].
  - apply Permutation_nil in Hperm. discriminate.
  - eauto.
  - eauto.
Qed.

Lemma get_best_operation_in n inst b1 b2 :
  get_best_operation n inst b1 b2 ∈ candidate_operations n inst b1 b2.
Proof.
  unfold get_best_operation.
  pose proof (sort_desc_perm tuple_lt (candidate_operations n inst b1 b2)) as Hperm.
  destruct (sort_desc tuple_lt _) as [|x rest].
  - exfalso. apply Permutation_nil in Hperm.
    unfold candidate_operations in Hperm. destruct b1. discriminate.
  - rewrite <- Hperm. left.
Qed.

Lemma candidate_operations_cases n inst b1 b2 q op :
  (q, op) ∈ candidate_operations n inst b1 b2 ->
  op = "best"%string \/ op = "new"%string \/
  (op = "merge"%string /\ 2 < length (children n) /\ exists cu2 j, b2 = Some (cu2, j)) \/
  (op = "split"%string /\ 0 < length (children (child_at n b1.2))).
Proof.
  unfold candidate_operations. destruct b1 as [cu1 i].
  intros H. apply elem_of_app in H as [H|H].
  { apply elem_of_cons in H as [H|H]; [inversion H; auto|].
    apply elem_of_cons in H as [H|H]; [inversion H; auto|].
    apply elem_of_nil in H. done. }
  apply elem_of_app in H as [H|H].
  - destruct b2 as [[cu2 j]|]; [|apply elem_of_nil in H; done].
    destruct (Nat.ltb_spec 2 (length (children n))); [|apply elem_of_nil in H; done].
    apply elem_of_cons in H as [H|H]; [|apply elem_of_nil in H; done].
    inversion H; subst. right; right; left. eauto.
  - destruct (Nat.ltb_spec 0 (length (children (child_at n i)))); [|apply elem_of_nil in H; done].
    apply elem_of_cons in H as [H|H]; [|apply elem_of_nil in H; done].
    inversion H; subst. right; right; right. auto.
Qed.

End ChoiceLemmas.

Section CobwebInvariants.

Lemma Cobweb_nested_ind (P : Cobweb -> Prop) :
  (forall c av cs, Forall P cs -> P (mkNode c av cs)) -> forall n, P n.
Proof.
  intros H. fix IH 1. intros [c av cs]. apply H.
  induction cs as [|x cs IHcs]; constructor; [apply IH | exact IHcs].
Qed.

Lemma all_nodes_impl (P Q : Cobweb -> Prop) n :
  (forall m, P m -> Q m) -> all_nodes P n -> all_nodes Q n.
Proof.
  intros HPQ. induction n as [c av cs IH] using Cobweb_nested_ind.
  rewrite !all_nodes_iff. simpl. intros [HP HF]. split; [auto|].
  rewrite Forall_forall in IH, HF |- *. intros x Hx. apply IH; auto.
Qed.

Lemma all_nodes_leaf (P : Cobweb -> Prop) n :
  children n = [] -> P n -> all_nodes P n.
Proof. intros Hc HP. apply all_nodes_iff. rewrite Hc. auto. Qed.

Lemma leaf_ok n : children n = [] -> 0 < count n -> all_nodes node_ok n.
Proof.
  intros Hc Hpos. apply all_nodes_leaf; [done|].
  split; [|split].
  - intros Hne. done.
  - intros H0. lia.
  - left. done.
Qed.

Lemma count_update self node :
  count (update_counts_from_node self node) = count self + count node.
Proof. reflexivity. Qed.

Lemma av_update_empty self node :
  av_counts node = ∅ -> av_counts (update_counts_from_node self node) = av_counts self.
Proof. intros H. unfold update_counts_from_node. simpl. rewrite H. apply map_fold_empty. Qed.

Lemma copy_leaf n :
  children n = [] ->
  count (copy_node n) = count n /\ children (copy_node n) = [] /\
  forall a v, av_get (av_counts (copy_node n)) a v = av_get (av_counts n) a v.
Proof.
  destruct n as [c av cs]. simpl. intros ->. split; [done|]. split; [done|].
  intros a v. rewrite (av_get_update new_node (mkNode c av [])). reflexivity.
Qed.

Lemma ecg_with_children n cs :
  expected_correct_guesses (with_children n cs) = expected_correct_guesses n.
Proof. reflexivity. Qed.

(** At a fresh leaf a fringe split has utility 0. *)
Lemma fringe_split_fresh_leaf n inst :
  children n = [] -> count n = 0 -> av_counts n = ∅ ->
  Qle_bool (cu_for_fringe_split n inst) min_cu = true.
Proof.
  destruct n as [c av cs]. simpl. intros -> -> ->.
  apply Qle_bool_iff. unfold cu_for_fringe_split, update_counts_from_node.
  cbn [count av_counts children]. rewrite map_fold_empty.
  unfold create_child_with_current_counts. cbn [count Nat.ltb fst].
  unfold category_utility. cbn -[expected_correct_guesses].
  rewrite ecg_with_children. fold new_node.
  unfold min_cu, qnat. apply Qle_lteq. right. simpl (inject_Z (Z.of_nat 1)).
  set (e := expected_correct_guesses (increment_counts new_node inst)).
  unfold Qdiv. ring.
Qed.

End CobwebInvariants.

Section CobwebStep.

Lemma count_increment n inst : count (increment_counts n inst) = S (count n).
Proof. reflexivity. Qed.
Lemma children_increment n inst : children (increment_counts n inst) = children n.
Proof. reflexivity. Qed.
Lemma count_with_children n cs : count (with_children n cs) = count n.
Proof. reflexivity. Qed.
Lemma av_with_children n cs : av_counts (with_children n cs) = av_counts n.
Proof. reflexivity. Qed.
Lemma children_with_children n cs : children (with_children n cs) = cs.
Proof. reflexivity. Qed.

Create Rewrite HintDb cobweb_simpl.
Hint Rewrite count_increment children_increment count_with_children av_with_children
  children_with_children av_get_empty av_get_increment av_get_update count_update : cobweb_simpl.

Lemma node_ok_intro n :
  (children n <> [] -> count n = sum_children count (children n)) ->
  (children n <> [] -> forall a v,
      av_get (av_counts n) a v = sum_children (fun c => av_get (av_counts c) a v) (children n)) ->
  zero_count_empty n ->
  (children n = [] \/ 2 <= length (children n)) ->
  Forall (all_nodes node_ok) (children n) ->
  all_nodes node_ok n.
Proof.
  intros H1 H2 H3 H4 H5. apply all_nodes_iff. split; [|done].
  split; [|split; [done|done]]. intros Hne. split; auto.
Qed.

Lemma cobweb_inv fuel : forall cur inst cur' p,
  cobweb fuel cur inst = Some (cur', p) ->
  all_nodes node_ok cur ->
  all_nodes node_ok cur' /\ count cur' = S (count cur) /\
  (forall a v, av_get (av_counts cur') a v = av_get (av_counts cur) a v + inst_occ inst a v).
Proof.
  induction fuel as [|fuel IH]; intros cur inst cur' p Hcall Hok; [discriminate|].
  cbn [cobweb] in Hcall.
  pose proof Hok as Hok'.
  apply all_nodes_iff in Hok as [[Hcons [Hzero Htwo]] HF].
  destruct (children cur) as [|c0 cs0] eqn:Ec.
  - (* leaf *)
    destruct (Qle_bool (cu_for_fringe_split cur inst) min_cu) eqn:Efr.
    + inversion Hcall; subst. split; [|split; [reflexivity| apply av_get_increment]].
      apply leaf_ok; simpl; [exact Ec| lia].
    + unfold create_child_with_current_counts in Hcall.
      destruct (Nat.ltb 0 (count cur)) eqn:Elt.
      * apply Nat.ltb_lt in Elt. simpl in Hcall. inversion Hcall; subst; clear Hcall.
        destruct (copy_leaf cur Ec) as (Hc1 & Hc2 & Hc3).
        split; [|split; [reflexivity|intros; autorewrite with cobweb_simpl; lia]].
        autorewrite with cobweb_simpl. rewrite Ec. cbn [app].
        apply node_ok_intro; cbn [sum_children fold_right length children with_children].
        -- intros _. autorewrite with cobweb_simpl. rewrite Hc1. simpl. lia.
        -- intros _ a v. autorewrite with cobweb_simpl. rewrite Hc3. simpl. autorewrite with cobweb_simpl. lia.
        -- intros H. discriminate.
        -- right. simpl. lia.
        -- constructor; [apply leaf_ok; [done|lia]|].
           constructor; [apply leaf_ok; [done|simpl; lia]|constructor].
      * exfalso. apply Nat.ltb_ge in Elt.
        assert (Hc : count cur = 0) by lia.
        rewrite fringe_split_fresh_leaf in Efr by auto. discriminate.
  - (* internal node *)
    rewrite <- Ec in HF.
    assert (Hne : children cur <> []) by (rewrite Ec; discriminate).
    assert (Hlen2 : 2 <= length (children cur)).
    { destruct Htwo as [H|H]; [congruence|exact H]. }
    destruct (Hcons Hne) as [Hsum Hsumav].
    destruct (two_best_children cur inst) as [[[cu1 i] ob2]|msg] eqn:Etb; [|discriminate].
    destruct (two_best_children_ok _ _ _ _ Etb) as (Hi & _ & Hb2). cbn [fst snd] in Hi, Hb2.
    assert (Hchild : all_nodes node_ok (child_at cur i)) by (unfold child_at; apply Forall_nth_node; auto).
    destruct (get_best_operation cur inst (cu1, i) ob2) as [acu op] eqn:Ego.
    pose proof (get_best_operation_in cur inst (cu1, i) ob2) as Hin. rewrite Ego in Hin.
    apply candidate_operations_cases in Hin. cbn [snd] in Hin, Hcall.
    destruct (Qle_bool acu min_cu) eqn:Ele.
    { (* prune *)
      inversion Hcall; subst. split; [|split; [reflexivity|intros; autorewrite with cobweb_simpl; lia]].
      apply leaf_ok; [reflexivity|simpl; lia]. }
    destruct (String.eqb_spec op "best") as [->|Hnb].
    { (* best *)
      change (child_at (increment_counts cur inst) i) with (child_at cur i) in Hcall.
      destruct (cobweb fuel (child_at cur i) inst) as [[b p0]|] eqn:Erec; [|discriminate].
      inversion Hcall; subst; clear Hcall.
      destruct (IH _ _ _ _ Erec Hchild) as (Hb & Hbc & Hbav).
      split; [|split; [reflexivity|intros; autorewrite with cobweb_simpl; lia]].
      apply node_ok_intro; autorewrite with cobweb_simpl.
      - intros _. pose proof (sum_children_insert count (children cur) i b Hi).
        unfold child_at in Hbc. lia.
      - intros _ a v. autorewrite with cobweb_simpl.
        pose proof (sum_children_insert (fun c => av_get (av_counts c) a v) (children cur) i b Hi).
        specialize (Hbav a v). specialize (Hsumav a v). unfold child_at in Hbav. cbn beta in *. lia.
      - intros H. discriminate.
      - right. rewrite length_insert. exact Hlen2.
      - apply Forall_insert; auto. }
    destruct (String.eqb_spec op "new") as [->|Hnn].
    { (* new *)
      unfold create_new_child in Hcall. inversion Hcall; subst; clear Hcall.
      split; [|split; [reflexivity|intros; autorewrite with cobweb_simpl; lia]].
      apply node_ok_intro; autorewrite with cobweb_simpl.
      - intros _. rewrite sum_children_app. simpl. lia.
      - intros _ a v. autorewrite with cobweb_simpl. rewrite sum_children_app.
        cbn [sum_children fold_right]. autorewrite with cobweb_simpl.
        cbn [av_counts new_node]. autorewrite with cobweb_simpl. specialize (Hsumav a v). lia.
      - intros H. discriminate.
      - right. rewrite length_app. lia.
      - apply Forall_app_2; [exact HF|]. constructor; [apply leaf_ok; [done|simpl; lia]|constructor]. }
    destruct (String.eqb_spec op "merge") as [->|Hnm].
    { (* merge *)
      destruct Hin as [H|[H|[(_ & Hgt & cu2 & j & ->)|H]]]; try discriminate; try (destruct H; discriminate).
      destruct (Hb2 (cu2, j) eq_refl) as (Hj & _ & Hji). cbn [fst snd] in Hj, Hji.
      assert (Hcj : all_nodes node_ok (child_at cur j)) by (unfold child_at; apply Forall_nth_node; auto).
      unfold merge in Hcall.
      change (child_at (increment_counts cur inst) i) with (child_at cur i) in Hcall.
      change (child_at (increment_counts cur inst) j) with (child_at cur j) in Hcall.
      rewrite children_increment in Hcall.
      set (nc := with_children (update_counts_from_node
                   (update_counts_from_node new_node (child_at cur i)) (child_at cur j))
                   [child_at cur i; child_at cur j]) in Hcall.
      assert (Hk : child_at (with_children (increment_counts cur inst)
                                (remove_at [i; j] (children cur) ++ [nc]))
                     (pred (length (remove_at [i; j] (children cur) ++ [nc]))) = nc).
      { unfold child_at. rewrite children_with_children, length_app. simpl.
        replace (pred (length (remove_at [i; j] (children cur)) + 1))
          with (length (remove_at [i; j] (children cur))) by lia. apply nth_middle. }
      cbn zeta in Hcall. rewrite Hk in Hcall.
      destruct (cobweb fuel nc inst) as [[m p1]|] eqn:Erec; [|discriminate].
      inversion Hcall; subst; clear Hcall.
      assert (Hij : i <> j) by congruence.
      assert (Hcnc : count nc = count (child_at cur i) + count (child_at cur j)).
      { unfold nc. autorewrite with cobweb_simpl. cbn [count new_node]. lia. }
      assert (Hanc : forall a v, av_get (av_counts nc) a v
                      = av_get (av_counts (child_at cur i)) a v
                        + av_get (av_counts (child_at cur j)) a v).
      { intros a v. unfold nc. autorewrite with cobweb_simpl. cbn [av_counts new_node].
        autorewrite with cobweb_simpl. lia. }
      assert (Hnc : all_nodes node_ok nc).
      { apply node_ok_intro.
        - intros _. rewrite Hcnc. unfold nc. rewrite children_with_children.
          cbn [sum_children fold_right]. lia.
        - intros _ a v. rewrite Hanc. unfold nc. rewrite children_with_children.
          cbn [sum_children fold_right]. lia.
        - intros H0. rewrite Hcnc in H0.
          apply all_nodes_iff in Hchild as [(_ & Hzi & _) _].
          apply all_nodes_iff in Hcj as [(_ & Hzj & _) _].
          unfold nc. rewrite av_with_children, av_update_empty by (apply Hzj; lia).
          rewrite av_update_empty by (apply Hzi; lia). reflexivity.
        - right. unfold nc. rewrite children_with_children. simpl. lia.
        - unfold nc. rewrite children_with_children.
          constructor; [exact Hchild|constructor; [exact Hcj|constructor]]. }
      destruct (IH _ _ _ _ Erec Hnc) as (Hm & Hmc & Hmav).
      pose proof (sum_remove_two count (children cur) i j Hi Hj Hij) as Hrc.
      pose proof (sum_remove_two (fun _ => 1) (children cur) i j Hi Hj Hij) as Hrl.
      rewrite !sum_children_one in Hrl.
      unfold child_at in Hk. rewrite children_with_children in Hk.
      assert (Hklt : pred (length (remove_at [i; j] (children cur) ++ [nc]))
                     < length (remove_at [i; j] (children cur) ++ [nc])).
      { rewrite length_app. simpl. lia. }
      split; [|split; [reflexivity|intros; autorewrite with cobweb_simpl; lia]].
      apply node_ok_intro; autorewrite with cobweb_simpl.
      - intros _.
        pose proof (sum_children_insert count _ _ m Hklt) as Hins.
        rewrite Hk, sum_children_app in Hins. cbn [sum_children fold_right] in Hins.
        unfold child_at in Hcnc. lia.
      - intros _ a v. autorewrite with cobweb_simpl.
        pose proof (sum_children_insert (fun c => av_get (av_counts c) a v) _ _ m Hklt) as Hins.
        rewrite Hk, sum_children_app in Hins. cbn [sum_children fold_right] in Hins.
        pose proof (sum_remove_two (fun c => av_get (av_counts c) a v) (children cur) i j Hi Hj Hij) as Hra.
        specialize (Hanc a v). specialize (Hmav a v). specialize (Hsumav a v).
        unfold child_at in Hanc. cbn beta in *. lia.
      - intros H. discriminate.
      - right. rewrite length_insert, length_app. simpl. lia.
      - apply Forall_insert; [|exact Hm].
        apply Forall_app_2; [apply Forall_remove_at_from; exact HF|].
        constructor; [exact Hnc|constructor]. }
    destruct (String.eqb_spec op "split") as [->|Hns]; [|discriminate].
    { (* split *)
      destruct Hin as [H|[H|[(H & _)|(_ & Hsplit)]]]; try discriminate.
      apply all_nodes_iff in Hchild as HB. destruct HB as [(Hbc & _ & Hbt) HbF].
      assert (Hbne : children (child_at cur i) <> []).
      { intros H. rewrite H in Hsplit. simpl in Hsplit. lia. }
      destruct (Hbc Hbne) as [Hbs Hbsav].
      assert (Hbl : 2 <= length (children (child_at cur i))).
      { destruct Hbt as [H|H]; [congruence|exact H]. }
      pose proof (sum_remove_one count (children cur) i Hi) as Hrc.
      pose proof (sum_remove_one (fun _ => 1) (children cur) i Hi) as Hrl.
      rewrite !sum_children_one in Hrl.
      assert (Hs : all_nodes node_ok (split cur i)).
      { unfold split. apply node_ok_intro; autorewrite with cobweb_simpl.
        - intros _. rewrite sum_children_app. unfold child_at in *. lia.
        - intros _ a v. rewrite sum_children_app.
          pose proof (sum_remove_one (fun c => av_get (av_counts c) a v) (children cur) i Hi) as Hra.
          specialize (Hsumav a v). specialize (Hbsav a v). unfold child_at in *. cbn beta in *. lia.
        - exact Hzero.
        - right. rewrite length_app. lia.
        - apply Forall_app_2; [apply Forall_remove_at_from; exact HF|exact HbF]. }
      exact (IH _ _ _ _ Hcall Hs). }
Qed.
End CobwebStep.

Section CobwebTotal.

Lemma num_concepts_pos n : 1 <= num_concepts n.
Proof. rewrite num_concepts_eq. lia. Qed.

Lemma sum_num_concepts_length l : length l <= sum_children num_concepts l.
Proof. induction l as [|c l IH]; simpl; [lia|]. pose proof (num_concepts_pos c). lia. Qed.

(** [num_concepts] iterations are enough: the loop never runs out. *)
Lemma cobweb_total fuel : forall cur inst,
  num_concepts cur <= fuel -> exists r, cobweb fuel cur inst = Some r.
Proof.
  induction fuel as [|fuel IH]; intros cur inst Hle.
  { pose proof (num_concepts_pos cur). lia. }
  rewrite num_concepts_eq in Hle.
  cbn [cobweb].
  destruct (children cur) as [|c0 cs0] eqn:Ec.
  { destruct (Qle_bool (cu_for_fringe_split cur inst) min_cu); eexists; reflexivity. }
  rewrite <- Ec in Hle.
  assert (Hne : children cur <> []) by (rewrite Ec; discriminate).
  destruct (two_best_children_nonempty cur inst Hne) as ([cu1 i] & ob2 & Etb).
  rewrite Etb.
  destruct (two_best_children_ok _ _ _ _ Etb) as (Hi & _ & Hb2). cbn [fst snd] in Hi, Hb2.
  destruct (get_best_operation cur inst (cu1, i) ob2) as [acu op] eqn:Ego.
  pose proof (get_best_operation_in cur inst (cu1, i) ob2) as Hin. rewrite Ego in Hin.
  apply candidate_operations_cases in Hin. cbn [snd].
  destruct (Qle_bool acu min_cu); [eexists; reflexivity|].
  pose proof (sum_remove_one num_concepts (children cur) i Hi) as Hri.
  destruct Hin as [->|[->|[(-> & Hgt & cu2 & j & ->)|(-> & Hsplit)]]].
  - change (child_at (increment_counts cur inst) i) with (child_at cur i).
    destruct (IH (child_at cur i) inst) as [[b p] Hb].
    { unfold child_at. lia. }
    rewrite Hb. eexists; reflexivity.
  - eexists; reflexivity.
  - destruct (Hb2 (cu2, j) eq_refl) as (Hj & _ & Hji). cbn [fst snd] in Hj, Hji.
    cbn [String.eqb Ascii.eqb Bool.eqb].
    unfold merge.
    change (child_at (increment_counts cur inst) i) with (child_at cur i).
    change (child_at (increment_counts cur inst) j) with (child_at cur j).
    rewrite children_increment.
    set (nc := with_children (update_counts_from_node
                 (update_counts_from_node new_node (child_at cur i)) (child_at cur j))
                 [child_at cur i; child_at cur j]).
    assert (Hk : child_at (with_children (increment_counts cur inst)
                              (remove_at [i; j] (children cur) ++ [nc]))
                   (pred (length (remove_at [i; j] (children cur) ++ [nc]))) = nc).
    { unfold child_at. rewrite children_with_children, length_app. simpl.
      replace (pred (length (remove_at [i; j] (children cur)) + 1))
        with (length (remove_at [i; j] (children cur))) by lia. apply nth_middle. }
    cbn zeta. rewrite Hk.
    assert (Hij : i <> j) by congruence.
    pose proof (sum_remove_two num_concepts (children cur) i j Hi Hj Hij) as Hr2.
    pose proof (sum_remove_two (fun _ => 1) (children cur) i j Hi Hj Hij) as Hrl.
    rewrite !sum_children_one in Hrl.
    pose proof (sum_num_concepts_length (remove_at [i; j] (children cur))) as HR.
    destruct (IH nc inst) as [[m p] Hm].
    { rewrite num_concepts_eq. unfold nc. rewrite children_with_children.
      cbn [sum_children fold_right]. unfold child_at. lia. }
    rewrite Hm. eexists; reflexivity.
  - cbn [String.eqb Ascii.eqb Bool.eqb].
    apply IH. rewrite num_concepts_eq. unfold split. rewrite children_with_children.
    rewrite sum_children_app.
    pose proof (num_concepts_eq (child_at cur i)) as Hb.
    unfold child_at in *. lia.
Qed.

Lemma ifit_total t inst : exists r, ifit t inst = Some r.
Proof. apply cobweb_total. lia. Qed.

End CobwebTotal.

Section SortMax.

(** The head of [sort_desc lt l] is a greatest element of [l] for the
    preorder [le], when [lt] is a strict order whose negation is [le]
    (transitivity is only needed on the elements sorted). *)
Context {A : Type} (lt : A -> A -> bool) (le : A -> A -> Prop) (good : A -> Prop).
Hypothesis lt_le : forall x y, lt y x = true -> le y x.
Hypothesis nlt_le : forall x y, lt y x = false -> le x y.
Hypothesis le_trans_good : forall x y z, good x -> good y -> good z -> le x y -> le y z -> le x z.

Lemma le_refl_any x : le x x.
Proof. destruct (lt x x) eqn:E; [apply lt_le | apply nlt_le]; exact E. Qed.

Lemma insert_desc_max x l :
  Forall good (x :: l) ->
  (forall h r, l = h :: r -> forall y, y ∈ l -> le y h) ->
  forall h r, insert_desc lt x l = h :: r -> forall y, y ∈ insert_desc lt x l -> le y h.
Proof.
  intros Hg Hmax h r. destruct l as [|y l']; simpl.
  - intros [= <- <-] z Hz. apply list_elem_of_singleton in Hz as ->. apply le_refl_any.
  - pose proof (Hmax y l' eq_refl) as Hy.
    apply Forall_cons in Hg as [Hgx Hgl]. apply Forall_cons in Hgl as [Hgy Hgl'].
    destruct (lt y x) eqn:E.
    + intros [= <- <-] z Hz. apply elem_of_cons in Hz as [->|Hz]; [apply le_refl_any|].
      assert (Hgz : good z) by (rewrite Forall_forall in Hgl'; apply elem_of_cons in Hz as [->|?]; auto).
      apply (le_trans_good z y x); auto.
    + intros [= <- <-] z Hz. apply elem_of_cons in Hz as [->|Hz]; [apply le_refl_any|].
      rewrite insert_desc_perm in Hz. apply elem_of_cons in Hz as [->|Hz].
      * apply nlt_le. exact E.
      * apply Hy. right. exact Hz.
Qed.

Lemma sort_desc_max l :
  Forall good l ->
  forall h r, sort_desc lt l = h :: r -> forall y, y ∈ l -> le y h.
Proof.
  intros Hg h r Hs y Hy.
  assert (H : forall acc, Forall good acc ->
            (forall h r, acc = h :: r -> forall y, y ∈ acc -> le y h) ->
            forall h r, fold_left (fun acc x => insert_desc lt x acc) l acc = h :: r ->
            forall y, y ∈ fold_left (fun acc x => insert_desc lt x acc) l acc -> le y h).
  { clear h r Hs y Hy. induction l as [|x l IH]; intros acc Hga Hacc; simpl; [exact Hacc|].
    apply Forall_cons in Hg as [Hgx Hgl].
    apply IH; [exact Hgl| |].
    - rewrite insert_desc_perm. constructor; auto.
    - apply insert_desc_max; [constructor; auto|exact Hacc]. }
  eapply (H []); [constructor| |exact Hs|].
  - intros ? ? [=].
  - unfold sort_desc in Hs |- *. rewrite Hs. rewrite <- Hs.
    change (y ∈ sort_desc lt l). rewrite sort_desc_perm. exact Hy.
Qed.

End SortMax.

Section ChoiceMax.

Lemma Qltb_true x y : Qltb x y = true -> (x < y)%Q.
Proof. unfold Qltb. destruct (Qcompare_spec x y); done. Qed.

Lemma Qltb_false x y : Qltb x y = false -> (y <= x)%Q.
Proof. unfold Qltb. destruct (Qcompare_spec x y) as [H|H|H]; intros E; try done; lra. Qed.

(** [best1] of [two_best_children] has the greatest [cu_for_insert]. *)
Lemma two_best_children_max n inst b1 ob2 :
  two_best_children n inst = Ok (b1, ob2) ->
  forall j, j < length (children n) -> (cu_for_insert n j inst <= b1.1)%Q.
Proof.
  unfold two_best_children.
  destruct (children n) as [|c cs] eqn:Ec; [discriminate|].
  set (L := imap (fun k _ => (cu_for_insert n k inst, k)) (c :: cs)).
  pose proof (sort_desc_max (fun y x : Q * nat => Qltb (fst y) (fst x)) (fun y x : Q * nat => (y.1 <= x.1)%Q)
                (fun _ => True)) as Hmax.
  specialize (Hmax (fun x y E => Qlt_le_weak _ _ (Qltb_true _ _ E))
                   (fun x y E => Qltb_false _ _ E)
                   (fun x y z _ _ _ H1 H2 => Qle_trans _ _ _ H1 H2) L).
  assert (HL : forall j, j < length (c :: cs) -> (cu_for_insert n j inst, j) ∈ L).
  { intros j Hj. apply lookup_lt_is_Some_2 in Hj as [cj Hcj].
    apply list_elem_of_lookup_2 with j. unfold L. rewrite list_lookup_imap, Hcj. done. }
  destruct (sort_desc _ L) as [|x [|y rest]] eqn:Es; intros H; inversion H; subst; clear H;
    intros j Hj; apply (Hmax (Forall_true _ L (fun _ => I)) _ _ eq_refl (cu_for_insert n j inst, j)); auto.
Qed.

(** [tuple_lt] as a proposition: [a] is not below [b]. *)
Lemma tuple_lt_false a b :
  tuple_lt a b = false <->
  ((b.1 < a.1)%Q \/ ((a.1 == b.1)%Q /\ String.compare a.2 b.2 <> Lt)).
Proof.
  unfold tuple_lt. destruct (Qcompare_spec a.1 b.1) as [H|H|H].
  - split.
    + intros E. right. split; [exact H|]. destruct (String.compare a.2 b.2); done.
    + intros [H'|[_ H']]; [lra|]. destruct (String.compare a.2 b.2); done.
  - split; [done|]. intros [H'|[H' _]]; lra.
  - split; [intros _; left; exact H|done].
Qed.

Lemma op_names_compare_trans x y z :
  x ∈ op_names -> y ∈ op_names -> z ∈ op_names ->
  String.compare y x <> Lt -> String.compare z y <> Lt -> String.compare z x <> Lt.
Proof.
  unfold op_names. intros Hx Hy Hz.
  repeat (apply elem_of_cons in Hx as [->|Hx]); [..|apply elem_of_nil in Hx; done];
  repeat (apply elem_of_cons in Hy as [->|Hy]); try (apply elem_of_nil in Hy; done);
  repeat (apply elem_of_cons in Hz as [->|Hz]); try (apply elem_of_nil in Hz; done);
  vm_compute; congruence.
Qed.

Lemma tuple_lt_trans x y z :
  x.2 ∈ op_names -> y.2 ∈ op_names -> z.2 ∈ op_names ->
  tuple_lt y x = false -> tuple_lt z y = false -> tuple_lt z x = false.
Proof.
  intros Hx Hy Hz. rewrite !tuple_lt_false.
  intros [H1|[H1 H1']] [H2|[H2 H2']].
  - left. lra.
  - left. lra.
  - left. lra.
  - right. split; [lra|]. exact (op_names_compare_trans x.2 y.2 z.2 Hx Hy Hz H1' H2').
Qed.

Lemma tuple_lt_asym x y : tuple_lt y x = true -> tuple_lt x y = false.
Proof.
  intros E. apply tuple_lt_false. unfold tuple_lt in E.
  destruct (Qcompare_spec y.1 x.1) as [H|H|H]; try done.
  - right. split; [lra|]. rewrite String.compare_antisym.
    destruct (String.compare y.2 x.2); done.
  - left. exact H.
Qed.

Lemma candidate_operations_names n inst b1 b2 :
  Forall (fun x => x.2 ∈ op_names) (candidate_operations n inst b1 b2).
Proof.
  apply Forall_forall. intros [q op] Hin.
  apply candidate_operations_cases in Hin. unfold op_names. simpl.
  destruct Hin as [->|[->|[[-> _]|[-> _]]]]; set_solver.
Qed.

(** The operation chosen is a greatest candidate for the order on
    [(cu, name)] pairs that the Python tuples are sorted by. *)
Lemma get_best_operation_max n inst b1 b2 :
  forall y, y ∈ candidate_operations n inst b1 b2 ->
  tuple_lt (get_best_operation n inst b1 b2) y = false.
Proof.
  intros y Hy. unfold get_best_operation.
  pose proof (sort_desc_max tuple_lt (fun a b => tuple_lt b a = false)
                (fun x => x.2 ∈ op_names) tuple_lt_asym (fun x y E => E)
                (fun x y z Hx Hy Hz H1 H2 => tuple_lt_trans x y z Hx Hy Hz H1 H2)
                _ (candidate_operations_names n inst b1 b2)) as Hmax.
  destruct (sort_desc tuple_lt _) as [|x rest] eqn:Es.
  - pose proof (sort_desc_perm tuple_lt (candidate_operations n inst b1 b2)) as Hp.
    rewrite Es in Hp. apply Permutation_nil in Hp. rewrite Hp in Hy. apply elem_of_nil in Hy. done.
  - exact (Hmax x rest eq_refl y Hy).
Qed.

End ChoiceMax.

Section ClaimLemmas.

Lemma new_node_ok : all_nodes node_ok new_node.
Proof.
  apply all_nodes_leaf; [reflexivity|].
  split; [|split]; [intros H; done|intros _; reflexivity|left; reflexivity].
Qed.

Lemma fit_ok insts : forall t,
  all_nodes node_ok t -> exists t', fit t insts = Some t' /\ all_nodes node_ok t'.
Proof.
  induction insts as [|inst insts IH]; intros t Hok; simpl; [eauto|].
  destruct (ifit_total t inst) as [[t1 p] E]. rewrite E.
  apply IH. exact (proj1 (cobweb_inv _ _ _ _ _ E Hok)).
Qed.

Lemma remove_at_from_last (x : Cobweb) (R : list Cobweb) :
  forall k, remove_at_from [k + length R] k (R ++ [x]) = R.
Proof.
  induction R as [|c R IH]; intros k; simpl.
  - rewrite Nat.add_0_r, Nat.eqb_refl. reflexivity.
  - replace (Nat.eqb k (k + S (length R))) with false
      by (symmetry; apply Nat.eqb_neq; lia). simpl.
    f_equal. replace (k + S (length R)) with (S k + length R) by lia. apply IH.
Qed.

Lemma foldr_ecg_inner (cnt : nat) (acc : Q) (l : list (string * nat)) :
  (foldr (uncurry (fun (_ : string) (c : nat) (acc' : Q) =>
                     (acc' + qnat c / qnat cnt * (qnat c / qnat cnt))%Q)) acc l
   == acc + fold_right Qplus 0 (map (fun '(_, c) => (qnat c / qnat cnt) ^ 2) l))%Q.
Proof.
  induction l as [|[v c] l IH]; cbn [foldr fold_right map uncurry]; [ring|].
  rewrite IH. ring.
Qed.

Lemma fold_left_cu (f : Cobweb -> Q) (cs : list Cobweb) (a : Q) :
  (fold_left (fun cu child => cu + f child) cs a == a + fold_right Qplus 0 (map f cs))%Q.
Proof.
  revert a. induction cs as [|c cs IH]; intros a; simpl; [ring|].
  rewrite IH. ring.
Qed.

(** One step of [cobweb_categorize]. *)
Lemma cobweb_categorize_step c av cs inst :
  cobweb_categorize (mkNode c av cs) inst =
  match cs with
  | [] => []
  | _ :: _ =>
      match two_best_children (mkNode c av cs) inst with
      | Ok ((_, i), _) => i :: nth i (map (fun c' => cobweb_categorize c' inst) cs) []
      | Raise _ => []
      end
  end.
Proof.
  destruct cs as [|c0 cs]; [reflexivity|].
  cbn [cobweb_categorize].
  destruct (two_best_children (mkNode c av (c0 :: cs)) inst) as [[[cu i] ob]|msg];
    [|reflexivity].
  f_equal. revert i c0. induction cs as [|c1 cs IH]; intros [|i] c0; try reflexivity.
  - simpl. destruct i; reflexivity.
  - exact (IH i c1).
Qed.

End ClaimLemmas.

(** * The claims *)

Module Claims.

(** C1: for every sequence of [ifit] calls on a fresh tree, every node of
    the resulting tree that has children has the sum of its children's
    [count] and, for every attribute/value pair, the sum of its children's
    counts for the pair.  (Every prefix of the sequence is a sequence, so
    this holds after each [ifit] returns; no [ifit] fails.) *)
Theorem fit_counts_conserved (insts : list instance) :
  exists t, fit new_node insts = Some t /\ all_nodes counts_conserved t.
Proof.
  destruct (fit_ok insts new_node new_node_ok) as (t & E & Hok).
  exists t. split; [exact E|].
  eapply all_nodes_impl; [|exact Hok]. intros m [H _]. exact H.
Qed.

(** C2: for a node with a positive [count], [expected_correct_guesses]
    is the sum over all stored attribute/value pairs of
    [(count(attr,val)/count)^2], and [category_utility] is 0 for a
    childless node and otherwise
    [(1/k) * sum over the k children of P(child) * (ECG(child) - ECG(node))]
    with [P(child) = child.count/count]. *)
Theorem ecg_and_category_utility (n : Cobweb) (Hpos : 0 < count n) :
  (expected_correct_guesses n == ecg_spec n)%Q /\
  (category_utility n == cu_spec n)%Q.
Proof.
  split.
  - unfold expected_correct_guesses, ecg_spec, av_pairs. rewrite map_fold_foldr.
    generalize (map_to_list (av_counts n)) as l.
    induction l as [|[attr vals] l IH]; cbn [foldr map concat uncurry]; [reflexivity|].
    rewrite map_fold_foldr, foldr_ecg_inner, IH, map_app, fold_right_app.
    assert (Hg : forall (l' : list (string * nat)) acc,
      (fold_right Qplus acc
         (map (fun '(_, _, c) => (qnat c / qnat (count n)) ^ 2)
              (map (fun '(val, c) => (attr, val, c)) l'))
       == fold_right Qplus 0 (map (fun '(_, c) => (qnat c / qnat (count n)) ^ 2) l') + acc)%Q).
    { induction l' as [|[v c] l' IHl]; intros acc; cbn [fold_right map]; [ring|].
      rewrite IHl. ring. }
    rewrite Hg. ring.
  - unfold category_utility, cu_spec.
    destruct (children n) as [|c cs]; [reflexivity|].
    rewrite fold_left_cu. unfold Qdiv. ring.
Qed.

(** C3 (amended): [get_best_operation] returns one of the candidates, no
    candidate has a greater utility, and a candidate of equal utility has
    a name of lower or equal rank in [split > new > merge > best] (the
    order of names in the reverse tuple sort).  So "best" loses every tie
    with another candidate. *)
Theorem get_best_operation_order n inst b1 b2 :
  get_best_operation n inst b1 b2 ∈ candidate_operations n inst b1 b2 /\
  forall y, y ∈ candidate_operations n inst b1 b2 ->
    (y.1 <= (get_best_operation n inst b1 b2).1)%Q /\
    ((y.1 == (get_best_operation n inst b1 b2).1)%Q ->
     op_rank y.2 <= op_rank (get_best_operation n inst b1 b2).2).
Proof.
  split; [apply get_best_operation_in|].
  intros y Hy.
  pose proof (get_best_operation_max n inst b1 b2 y Hy) as Hm.
  pose proof (candidate_operations_names n inst b1 b2) as Hn.
  rewrite Forall_forall in Hn.
  pose proof (Hn _ Hy) as Hyn. pose proof (Hn _ (get_best_operation_in n inst b1 b2)) as Hxn.
  destruct (get_best_operation n inst b1 b2) as [xq xo]. destruct y as [yq yo].
  cbn [fst snd] in *.
  apply tuple_lt_false in Hm. cbn [fst snd] in Hm.
  split.
  - destruct Hm as [H|[H _]]; lra.
  - intros Heq. destruct Hm as [H|[_ H]]; [lra|].
    unfold op_names in Hyn, Hxn.
    repeat (apply elem_of_cons in Hyn as [->|Hyn]); try (apply elem_of_nil in Hyn; done);
    repeat (apply elem_of_cons in Hxn as [->|Hxn]); try (apply elem_of_nil in Hxn; done);
    vm_compute; vm_compute in H; try lia; congruence.
Qed.

(** C3 fails as stated: at [tie_node] with a red instance the "best" and
    "new" candidates both have utility 0, and the operation chosen is
    "new", not "best". *)
Lemma get_best_operation_tie_not_best :
  two_best_children tie_node red_inst = Ok ((0 # 5832, 0%nat), Some (0 # 5832, 1%nat)) /\
  (0 # 5832, "best"%string) ∈ candidate_operations tie_node red_inst (0 # 5832, 0%nat) (Some (0 # 5832, 1%nat)) /\
  (0 # 59049, "new"%string) ∈ candidate_operations tie_node red_inst (0 # 5832, 0%nat) (Some (0 # 5832, 1%nat)) /\
  (0 # 5832 == 0 # 59049)%Q /\
  get_best_operation tie_node red_inst (0 # 5832, 0%nat) (Some (0 # 5832, 1%nat)) = (0 # 59049, "new"%string).
Proof.
  split; [vm_compute; reflexivity|].
  split; [vm_compute; left|].
  split; [vm_compute; right; left|].
  split; [reflexivity|vm_compute; reflexivity].
Qed.

(** C4: at a node with children, when the utility of the operation chosen
    by [get_best_operation] is at most [min_cu], one iteration of the loop
    adds the instance to the node, drops all of its children, and returns
    that node (the empty path). *)
Theorem cobweb_prune fuel cur inst b1 b2 :
  children cur <> [] ->
  two_best_children cur inst = Ok (b1, b2) ->
  ((get_best_operation cur inst b1 b2).1 <= min_cu)%Q ->
  cobweb (S fuel) cur inst = Some (with_children (increment_counts cur inst) [], []).
Proof.
  intros Hne Htb Hle. cbn [cobweb].
  destruct (children cur) as [|c0 cs0] eqn:Ec; [done|].
  rewrite Htb.
  destruct (get_best_operation cur inst b1 b2) as [acu op]. cbn [fst] in Hle.
  rewrite (proj2 (Qle_bool_iff acu min_cu) Hle). reflexivity.
Qed.

(** C5: at a leaf (for any leaf whose [count] is 0 only when it has no
    attribute counts, as in every tree built by [ifit]): when
    [cu_for_fringe_split] is at most [min_cu], the leaf is incremented and
    returned, still childless; otherwise the incremented leaf gets exactly
    two children, a copy of its former statistics and a new child holding
    only the instance, and the second one is returned (path [[1]]). *)
Theorem cobweb_leaf fuel cur inst :
  children cur = [] ->
  (count cur = 0 -> av_counts cur = ∅) ->
  ((cu_for_fringe_split cur inst <= min_cu)%Q ->
   cobweb (S fuel) cur inst = Some (increment_counts cur inst, []) /\
   children (increment_counts cur inst) = []) /\
  (~ (cu_for_fringe_split cur inst <= min_cu)%Q ->
   exists c1 c2,
     cobweb (S fuel) cur inst = Some (with_children (increment_counts cur inst) [c1; c2], [1]) /\
     count c1 = count cur /\ children c1 = [] /\
     (forall a v, av_get (av_counts c1) a v = av_get (av_counts cur) a v) /\
     c2 = increment_counts new_node inst).
Proof.
  intros Hc Hz. split.
  - intros Hle. cbn [cobweb]. rewrite Hc.
    rewrite (proj2 (Qle_bool_iff _ _) Hle). split; [reflexivity|exact Hc].
  - intros Hnle. cbn [cobweb]. rewrite Hc.
    destruct (Qle_bool (cu_for_fringe_split cur inst) min_cu) eqn:Efr.
    { apply Qle_bool_iff in Efr. contradiction. }
    assert (Hpos : Nat.ltb 0 (count cur) = true).
    { apply Nat.ltb_lt. destruct (Nat.eq_dec (count cur) 0) as [E0|E0]; [|lia].
      rewrite (fringe_split_fresh_leaf cur inst Hc E0 (Hz E0)) in Efr. discriminate. }
    unfold create_child_with_current_counts. rewrite Hpos.
    destruct (copy_leaf cur Hc) as (H1 & H2 & H3).
    exists (copy_node cur), (increment_counts new_node inst).
    split; [|auto].
    destruct cur as [c av cs]. cbn [children] in Hc. subst cs. reflexivity.
Qed.

(** C6: from a fresh tree, [ifit] with color red, red, then blue gives a
    root with [count] 3, at least two children, and
    [get_probability("color","red") = 2/3]. *)
Theorem fit_red_red_blue :
  exists t, fit new_node [red_inst; red_inst; blue_inst] = Some t /\
    count t = 3 /\ 2 <= length (children t) /\
    (get_probability t "color" "red" == 2 # 3)%Q.
Proof.
  eexists. split; [vm_compute; reflexivity|].
  vm_compute. split; [reflexivity|]. split; [lia|reflexivity].
Qed.

(** C7: for two distinct children [i] and [j] of a node, [merge] followed
    by [split] of the merged child gives back the node with its other
    children, then children [i] and [j] themselves (same counts and
    attribute/value counts), and the node's own statistics unchanged. *)
Theorem merge_then_split n i j :
  i < length (children n) -> j < length (children n) -> i <> j ->
  children (split (fst (merge n i j)) (snd (merge n i j)))
  = remove_at [i; j] (children n) ++ [child_at n i; child_at n j] /\
  count (split (fst (merge n i j)) (snd (merge n i j))) = count n /\
  av_counts (split (fst (merge n i j)) (snd (merge n i j))) = av_counts n.
Proof.
  intros _ _ _. unfold split, merge. cbn [fst snd].
  rewrite !children_with_children, !count_with_children, !av_with_children.
  split; [|split; reflexivity].
  set (R := remove_at [i; j] (children n)).
  set (nc := with_children _ [child_at n i; child_at n j]).
  assert (Hk : child_at (with_children n (R ++ [nc])) (pred (length (R ++ [nc]))) = nc).
  { unfold child_at. rewrite children_with_children, length_app. simpl.
    replace (pred (length R + 1)) with (length R) by lia. apply nth_middle. }
  rewrite Hk. change (children nc) with [child_at n i; child_at n j].
  rewrite length_app. simpl. replace (pred (length R + 1)) with (0 + length R) by lia.
  unfold remove_at. rewrite remove_at_from_last. reflexivity.
Qed.

(** C8: [cobweb_categorize] ends at a childless node of the tree.  It is a
    pure function of the tree and the instance (it returns a path and no
    new tree), so it changes no count and gives the same leaf on every
    call. *)
Theorem categorize_reaches_leaf (t : Cobweb) (inst : instance) :
  exists leaf, subtree t (cobweb_categorize t inst) = Some leaf /\ children leaf = [].
Proof.
  induction t as [c av cs IH] using Cobweb_nested_ind.
  rewrite cobweb_categorize_step.
  destruct cs as [|c0 cs0].
  { exists (mkNode c av []). split; reflexivity. }
  destruct (two_best_children (mkNode c av (c0 :: cs0)) inst) as [[[cu i] ob]|msg] eqn:Etb.
  - destruct (two_best_children_ok _ _ _ _ Etb) as (Hi & _ & _).
    cbn [fst snd children] in Hi.
    apply lookup_lt_is_Some_2 in Hi as [x Hx].
    cbn [subtree children]. rewrite Hx.
    assert (Hn : nth i (map (fun c' => cobweb_categorize c' inst) (c0 :: cs0)) []
                 = cobweb_categorize x inst).
    { apply nth_lookup_Some. change (map ?f ?l) with (f <$> l).
      rewrite list_lookup_fmap, Hx. reflexivity. }
    rewrite Hn. exact (Forall_lookup_1 _ _ _ _ IH Hx).
  - destruct (two_best_children_nonempty (mkNode c av (c0 :: cs0)) inst) as (b1 & ob2 & E);
      [discriminate|].
    rewrite E in Etb. discriminate.
Qed.

(** C9: [two_best_children] raises "No children!" on a childless node; on
    a node with children it returns a first pair [(cu, i)] where [i] is a
    child, [cu] is its [cu_for_insert], and no child has a greater
    [cu_for_insert]. *)
Theorem two_best_children_first n inst :
  (children n = [] -> two_best_children n inst = Raise "No children!") /\
  (children n <> [] ->
   exists cu i ob2, two_best_children n inst = Ok ((cu, i), ob2) /\
     i < length (children n) /\ cu = cu_for_insert n i inst /\
     forall j, j < length (children n) -> (cu_for_insert n j inst <= cu)%Q).
Proof.
  split.
  - intros Hc. unfold two_best_children. rewrite Hc. reflexivity.
  - intros Hne. destruct (two_best_children_nonempty n inst Hne) as ([cu i] & ob2 & E).
    exists cu, i, ob2. split; [exact E|].
    destruct (two_best_children_ok _ _ _ _ E) as (Hi & Hcu & _).
    split; [exact Hi|]. split; [exact Hcu|].
    exact (two_best_children_max n inst (cu, i) ob2 E).
Qed.

(** C10: for every sequence of [ifit] calls on a fresh tree, every node of
    the resulting tree that has children has at least two. *)
Theorem fit_two_plus_children (insts : list instance) :
  exists t, fit new_node insts = Some t /\ all_nodes two_plus_children t.
Proof.
  destruct (fit_ok insts new_node new_node_ok) as (t & E & Hok).
  exists t. split; [exact E|].
  eapply all_nodes_impl; [|exact Hok]. intros m (_ & _ & H). exact H.
Qed.

(** ** Instances of the claims at concrete inputs *)

Lemma ecg_and_category_utility_witness :
  0 < count tie_node /\
  (expected_correct_guesses tie_node == ecg_spec tie_node)%Q /\
  (category_utility tie_node == cu_spec tie_node)%Q.
Proof.
  split; [vm_compute; lia|].
  apply (ecg_and_category_utility tie_node). vm_compute. lia.
Defined.

Lemma get_best_operation_order_witness :
  get_best_operation tie_node red_inst (0 # 5832, 0%nat) (Some (0 # 5832, 1%nat))
    ∈ candidate_operations tie_node red_inst (0 # 5832, 0%nat) (Some (0 # 5832, 1%nat)) /\
  ((0 # 5832, "best"%string).1
     <= (get_best_operation tie_node red_inst (0 # 5832, 0%nat) (Some (0 # 5832, 1%nat))).1)%Q.
Proof.
  destruct (get_best_operation_order tie_node red_inst (0 # 5832, 0%nat) (Some (0 # 5832, 1%nat)))
    as [Hin Hall].
  split; [exact Hin|].
  apply (Hall (0 # 5832, "best"%string)). vm_compute. left.
Defined.

Lemma cobweb_prune_witness :
  children tie_node <> [] /\
  two_best_children tie_node red_inst = Ok ((0 # 5832, 0%nat), Some (0 # 5832, 1%nat)) /\
  ((get_best_operation tie_node red_inst (0 # 5832, 0%nat) (Some (0 # 5832, 1%nat))).1 <= min_cu)%Q /\
  cobweb 1 tie_node red_inst = Some (with_children (increment_counts tie_node red_inst) [], []).
Proof.
  assert (H1 : children tie_node <> []) by discriminate.
  assert (H2 : two_best_children tie_node red_inst = Ok ((0 # 5832, 0%nat), Some (0 # 5832, 1%nat)))
    by (vm_compute; reflexivity).
  assert (H3 : ((get_best_operation tie_node red_inst (0 # 5832, 0%nat) (Some (0 # 5832, 1%nat))).1
                <= min_cu)%Q) by (vm_compute; discriminate).
  split; [exact H1|]. split; [exact H2|]. split; [exact H3|].
  exact (cobweb_prune 0 tie_node red_inst _ _ H1 H2 H3).
Defined.

Lemma cobweb_leaf_witness :
  children red_leaf = [] /\ (count red_leaf = 0 -> av_counts red_leaf = ∅) /\
  (~ (cu_for_fringe_split red_leaf blue_inst <= min_cu)%Q) /\
  exists c1 c2,
    cobweb 1 red_leaf blue_inst
    = Some (with_children (increment_counts red_leaf blue_inst) [c1; c2], [1]) /\
    count c1 = count red_leaf /\ children c1 = [] /\
    (forall a v, av_get (av_counts c1) a v = av_get (av_counts red_leaf) a v) /\
    c2 = increment_counts new_node blue_inst.
Proof.
  assert (H1 : children red_leaf = []) by reflexivity.
  assert (H2 : count red_leaf = 0 -> av_counts red_leaf = ∅) by (vm_compute; lia).
  assert (H3 : ~ (cu_for_fringe_split red_leaf blue_inst <= min_cu)%Q)
    by (vm_compute; intros H; apply H; reflexivity).
  split; [exact H1|]. split; [exact H2|]. split; [exact H3|].
  exact (proj2 (cobweb_leaf 0 red_leaf blue_inst H1 H2) H3).
Defined.

Lemma merge_then_split_witness :
  0 < length (children tie_node) /\ 1 < length (children tie_node) /\ 0 <> 1 /\
  children (split (fst (merge tie_node 0 1)) (snd (merge tie_node 0 1)))
  = remove_at [0; 1] (children tie_node) ++ [child_at tie_node 0; child_at tie_node 1].
Proof.
  assert (H1 : 0 < length (children tie_node)) by (simpl; lia).
  assert (H2 : 1 < length (children tie_node)) by (simpl; lia).
  assert (H3 : 0 <> 1) by lia.
  split; [exact H1|]. split; [exact H2|]. split; [exact H3|].
  exact (proj1 (merge_then_split tie_node 0 1 H1 H2 H3)).
Defined.

Lemma two_best_children_first_witness :
  children tie_node <> [] /\
  exists cu i ob2, two_best_children tie_node red_inst = Ok ((cu, i), ob2) /\
    i < length (children tie_node) /\ cu = cu_for_insert tie_node i red_inst /\
    forall j, j < length (children tie_node) -> (cu_for_insert tie_node j red_inst <= cu)%Q.
Proof.
  assert (H : children tie_node <> []) by discriminate.
  split; [exact H|].
  exact (proj2 (two_best_children_first tie_node red_inst) H).
Defined.

End Claims.

(** * Further properties of the code *)

Section MapFoldLemmas.

Lemma map_fold_preserve {A B} (P : B -> Prop) (f : string -> A -> B -> B) (b : B)
    (m : gmap string A) :
  P b -> (forall k x acc, m !! k = Some x -> P acc -> P (f k x acc)) -> P (map_fold f b m).
Proof.
  intros Hb Hf. rewrite map_fold_foldr.
  assert (Hin : forall kx, kx ∈ map_to_list m -> m !! kx.1 = Some kx.2).
  { intros [k x] H. apply elem_of_map_to_list. exact H. }
  induction (map_to_list m) as [|[k x] l IH]; simpl; [exact Hb|].
  apply (Hf k x); [apply (Hin (k, x)); left|].
  apply IH. intros kx H. apply Hin. right. exact H.
Qed.


End MapFoldLemmas.

Section AvOk.

Lemma av_ok_empty : av_ok ∅.
Proof. intros attr vals H. rewrite lookup_empty in H. discriminate. Qed.

Lemma av_ok_add av k x c : av_ok av -> 0 < c -> av_ok (av_add av k x c).
Proof.
  intros Hok Hc attr vals H. unfold av_add in H.
  destruct (String.eqb_spec k attr) as [->|Hne].
  - rewrite lookup_insert_eq in H. inversion H; subst; clear H.
    split; [apply insert_non_empty|].
    intros val c' Hv. destruct (String.eqb_spec x val) as [->|Hxv].
    + rewrite lookup_insert_eq in Hv. inversion Hv. lia.
    + rewrite lookup_insert_ne in Hv by congruence.
      destruct (av !! attr) as [old|] eqn:Eo; simpl in Hv.
      * exact (proj2 (Hok attr old Eo) val c' Hv).
      * rewrite lookup_empty in Hv. discriminate.
  - rewrite lookup_insert_ne in H by congruence. exact (Hok attr vals H).
Qed.

Lemma av_ok_increment n inst :
  av_ok (av_counts n) -> av_ok (av_counts (increment_counts n inst)).
Proof.
  intros Hok. unfold increment_counts. cbn [av_counts].
  apply map_fold_preserve; [exact Hok|]. intros k x acc _ Hacc. apply av_ok_add; [exact Hacc|lia].
Qed.

Lemma av_ok_update self node :
  av_ok (av_counts self) -> av_ok (av_counts node) ->
  av_ok (av_counts (update_counts_from_node self node)).
Proof.
  intros Hs Hn. unfold update_counts_from_node. cbn [av_counts].
  apply map_fold_preserve; [exact Hs|]. intros k vals acc Hk Hacc.
  apply map_fold_preserve; [exact Hacc|]. intros val c acc' Hv Hacc'.
  apply av_ok_add; [exact Hacc'|]. exact (proj2 (Hn k vals Hk) val c Hv).
Qed.

End AvOk.

Section AttrTotal.




End AttrTotal.

Section LocalInvariant.

(** A property of a node's own statistics that holds at a fresh node and
    is kept by [increment_counts] (for the instances considered) and by
    [update_counts_from_node] holds at every node of the trees [cobweb]
    builds. *)
Variable L : nat -> gmap string (gmap string nat) -> Prop.
Variable good : instance -> Prop.
Hypothesis L_new : L 0 ∅.
Hypothesis L_inc : forall inst n, good inst ->
  L (count n) (av_counts n) -> L (S (count n)) (av_counts (increment_counts n inst)).
Hypothesis L_upd : forall a b, L (count a) (av_counts a) -> L (count b) (av_counts b) ->
  L (count a + count b) (av_counts (update_counts_from_node a b)).

Local Notation LL := (fun n : Cobweb => L (count n) (av_counts n)).

Lemma local_leaf n : children n = [] -> LL n -> all_nodes LL n.
Proof. intros Hc H. apply all_nodes_leaf; assumption. Qed.

Lemma local_node n : LL n -> Forall (all_nodes LL) (children n) -> all_nodes LL n.
Proof. intros H HF. apply all_nodes_iff. auto. Qed.

Lemma local_new_child inst : good inst -> all_nodes LL (increment_counts new_node inst).
Proof. intros Hg. apply local_leaf; [reflexivity|]. apply (L_inc inst new_node Hg L_new). Qed.

Lemma local_copy_leaf n : children n = [] -> LL n -> all_nodes LL (copy_node n).
Proof.
  destruct n as [c av cs]. cbn [children]. intros -> H.
  apply local_leaf; [reflexivity|].
  exact (L_upd new_node (mkNode c av []) L_new H).
Qed.

Lemma cobweb_local fuel : forall cur inst cur' p,
  good inst -> cobweb fuel cur inst = Some (cur', p) ->
  all_nodes LL cur -> all_nodes LL cur'.
Proof.
  induction fuel as [|fuel IH]; intros cur inst cur' p Hg Hcall Hok; [discriminate|].
  cbn [cobweb] in Hcall.
  apply all_nodes_iff in Hok as [Hroot HF].
  assert (Hinc : LL (increment_counts cur inst)) by (apply L_inc; assumption).
  destruct (children cur) as [|c0 cs0] eqn:Ec.
  - destruct (Qle_bool (cu_for_fringe_split cur inst) min_cu).
    + inversion Hcall; subst. apply local_leaf; [exact Ec|exact Hinc].
    + unfold create_child_with_current_counts in Hcall.
      destruct (Nat.ltb 0 (count cur)); simpl in Hcall; inversion Hcall; subst; clear Hcall.
      * apply local_node; [exact Hinc|]. cbn [children with_children increment_counts].
        rewrite Ec. cbn [app].
        constructor; [apply local_copy_leaf; assumption|].
        constructor; [apply local_new_child; exact Hg|constructor].
      * apply local_node; [exact Hinc|]. cbn [children with_children increment_counts].
        rewrite Ec. cbn [app].
        constructor; [apply local_new_child; exact Hg|constructor].
  - rewrite <- Ec in HF.
    destruct (two_best_children cur inst) as [[[cu1 i] ob2]|msg] eqn:Etb; [|discriminate].
    destruct (two_best_children_ok _ _ _ _ Etb) as (Hi & _ & Hb2). cbn [fst snd] in Hi, Hb2.
    assert (Hchild : all_nodes LL (child_at cur i)) by (unfold child_at; apply Forall_nth_node; auto).
    destruct (get_best_operation cur inst (cu1, i) ob2) as [acu op] eqn:Ego.
    pose proof (get_best_operation_in cur inst (cu1, i) ob2) as Hin. rewrite Ego in Hin.
    apply candidate_operations_cases in Hin. cbn [snd] in Hin, Hcall.
    destruct (Qle_bool acu min_cu).
    { inversion Hcall; subst. apply local_leaf; [reflexivity|exact Hinc]. }
    destruct (String.eqb_spec op "best") as [->|Hnb].
    { change (child_at (increment_counts cur inst) i) with (child_at cur i) in Hcall.
      destruct (cobweb fuel (child_at cur i) inst) as [[b p0]|] eqn:Erec; [|discriminate].
      inversion Hcall; subst; clear Hcall.
      apply local_node; [exact Hinc|]. cbn [children with_children increment_counts].
      apply Forall_insert; [exact HF|]. exact (IH _ _ _ _ Hg Erec Hchild). }
    destruct (String.eqb_spec op "new") as [->|Hnn].
    { unfold create_new_child in Hcall. inversion Hcall; subst; clear Hcall.
      apply local_node; [exact Hinc|]. cbn [children with_children increment_counts].
      apply Forall_app_2; [exact HF|]. constructor; [apply local_new_child; exact Hg|constructor]. }
    destruct (String.eqb_spec op "merge") as [->|Hnm].
    { destruct Hin as [H|[H|[(_ & Hgt & cu2 & j & ->)|H]]]; try discriminate; try (destruct H; discriminate).
      destruct (Hb2 (cu2, j) eq_refl) as (Hj & _ & _). cbn [fst snd] in Hj.
      assert (Hcj : all_nodes LL (child_at cur j)) by (unfold child_at; apply Forall_nth_node; auto).
      unfold merge in Hcall.
      change (child_at (increment_counts cur inst) i) with (child_at cur i) in Hcall.
      change (child_at (increment_counts cur inst) j) with (child_at cur j) in Hcall.
      rewrite children_increment in Hcall.
      set (nc := with_children (update_counts_from_node
                   (update_counts_from_node new_node (child_at cur i)) (child_at cur j))
                   [child_at cur i; child_at cur j]) in Hcall.
      assert (Hk : child_at (with_children (increment_counts cur inst)
                                (remove_at [i; j] (children cur) ++ [nc]))
                     (pred (length (remove_at [i; j] (children cur) ++ [nc]))) = nc).
      { unfold child_at. rewrite children_with_children, length_app. simpl.
        replace (pred (length (remove_at [i; j] (children cur)) + 1))
          with (length (remove_at [i; j] (children cur))) by lia. apply nth_middle. }
      cbn zeta in Hcall. rewrite Hk in Hcall.
      destruct (cobweb fuel nc inst) as [[m p1]|] eqn:Erec; [|discriminate].
      inversion Hcall; subst; clear Hcall.
      apply all_nodes_iff in Hchild as Hci. apply all_nodes_iff in Hcj as Hcj'.
      assert (Hnc : all_nodes LL nc).
      { apply local_node.
        - unfold nc. cbn [count av_counts with_children].
          apply L_upd; [apply L_upd; [exact L_new|exact (proj1 Hci)]|exact (proj1 Hcj')].
        - unfold nc. rewrite children_with_children.
          constructor; [exact Hchild|constructor; [exact Hcj|constructor]]. }
      apply local_node; [exact Hinc|]. cbn [children with_children increment_counts].
      apply Forall_insert; [|exact (IH _ _ _ _ Hg Erec Hnc)].
      apply Forall_app_2; [apply Forall_remove_at_from; exact HF|].
      constructor; [exact Hnc|constructor]. }
    destruct (String.eqb_spec op "split") as [->|Hns]; [|discriminate].
    { apply all_nodes_iff in Hchild as [_ HbF].
      assert (Hs : all_nodes LL (split cur i)).
      { unfold split. apply local_node; [exact Hroot|].
        rewrite children_with_children.
        apply Forall_app_2; [apply Forall_remove_at_from; exact HF|exact HbF]. }
      exact (IH _ _ _ _ Hg Hcall Hs). }
Qed.

Lemma fit_local insts : Forall good insts ->
  forall t t', all_nodes LL t -> fit t insts = Some t' -> all_nodes LL t'.
Proof.
  induction insts as [|inst insts IH]; intros Hg t t' Hok Hfit; simpl in Hfit.
  - inversion Hfit; subst. exact Hok.
  - apply Forall_cons in Hg as [Hg1 Hg].
    destruct (ifit t inst) as [[t1 p]|] eqn:E; [|discriminate].
    exact (IH Hg t1 t' (cobweb_local _ _ _ _ _ Hg1 E Hok) Hfit).
Qed.

Lemma fit_local_fresh insts t :
  Forall good insts -> fit new_node insts = Some t -> all_nodes LL t.
Proof.
  intros Hg Hfit. apply (fit_local insts Hg new_node t); [|exact Hfit].
  apply local_leaf; [reflexivity|exact L_new].
Qed.

End LocalInvariant.

Section FitInstances.

Lemma av_get_le_increment n inst a v :
  av_get (av_counts (increment_counts n inst)) a v <= S (av_get (av_counts n) a v).
Proof. rewrite av_get_increment. unfold inst_occ. destruct (inst !! a); [destruct (String.eqb _ _)|]; lia. Qed.

(** At every node of a tree built by [fit] from a fresh tree, the inner
    dicts are nonempty, the counts positive, and no pair count exceeds
    the node's [count]. *)
Lemma fit_bounded insts t :
  fit new_node insts = Some t ->
  all_nodes (fun n => av_ok (av_counts n) /\
                      forall a v, av_get (av_counts n) a v <= count n) t.
Proof.
  apply (fit_local_fresh (fun c av => av_ok av /\ forall a v, av_get av a v <= c) (fun _ => True));
    [| | |apply Forall_true; intros; exact I].
  - split; [apply av_ok_empty|]. intros a v. rewrite av_get_empty. lia.
  - intros inst n _ [Hok Hle]. split; [apply av_ok_increment; exact Hok|].
    intros a v. pose proof (av_get_le_increment n inst a v). specialize (Hle a v). lia.
  - intros a b [Ha Hla] [Hb Hlb]. split; [apply av_ok_update; assumption|].
    intros x v. rewrite av_get_update. specialize (Hla x v). specialize (Hlb x v). lia.
Qed.



Lemma qnat_le_div c d : c <= d -> (0 <= qnat c / qnat d <= 1)%Q.
Proof.
  intros Hcd. unfold qnat. destruct d as [|d].
  - assert (E : (inject_Z (Z.of_nat c) / inject_Z (Z.of_nat 0) == 0)%Q) by (unfold Qdiv; change (Qinv (inject_Z (Z.of_nat 0))) with 0%Q; apply Qmult_0_r).
    rewrite E. split; vm_compute; intros H; discriminate H.
  - assert (Hd : (0 < inject_Z (Z.of_nat (S d)))%Q) by (change 0%Q with (inject_Z 0); rewrite <- Zlt_Qlt; lia).
    split.
    + apply Qle_shift_div_l; [exact Hd|]. rewrite Qmult_0_l. change 0%Q with (inject_Z 0). rewrite <- Zle_Qle. lia.
    + apply Qle_shift_div_r; [exact Hd|]. rewrite Qmult_1_l. rewrite <- Zle_Qle. lia.
Qed.

Lemma get_probability_av_get n a v :
  get_probability n a v = (qnat (av_get (av_counts n) a v) / qnat (count n))%Q \/
  (get_probability n a v = 0%Q /\ av_get (av_counts n) a v = 0).
Proof.
  unfold get_probability, av_get. destruct (av_counts n !! a) as [vals|]; [|right; done].
  destruct (vals !! v); [left; done|right; done].
Qed.









End FitInstances.

Section SubCounts.

(** The two loops of [sub_counts], as functions of their accumulator. *)
Variable F : string -> nat -> option (gmap string Z) -> option (gmap string Z).
Hypothesis F_none : forall v c, F v c None = None.
Hypothesis F_some : forall v c tv, F v c (Some tv) =
  match tv !! v with None => None | Some x => Some (<[v := (x - Z.of_nat c)%Z]> tv) end.

Variable G : string -> gmap string nat -> option (gmap string (gmap string Z)) ->
             option (gmap string (gmap string Z)).
Hypothesis G_none : forall a vals, G a vals None = None.
Hypothesis G_some : forall a vals t, G a vals (Some t) =
  match t !! a with
  | None => None
  | Some tv => match map_fold F (Some tv) vals with
               | None => None
               | Some tv' => Some (<[a := tv']> t)
               end
  end.

Lemma inner_sub l : forall tv,
  match foldr (uncurry F) (Some tv) l with
  | Some tv' => (forall vc, vc ∈ l -> is_Some (tv !! vc.1)) /\
      forall v, tv' !! v = (fun x => (x - Z.of_nat (sum_list_with
                   (fun vc => if String.eqb vc.1 v then vc.2 else 0%nat) l))%Z) <$> tv !! v
  | None => exists vc, vc ∈ l /\ tv !! vc.1 = None
  end.
Proof.
  induction l as [|[v0 c0] l IH]; intros tv; cbn [foldr].
  - split; [intros vc Hvc; apply elem_of_nil in Hvc; done|].
    intros v. destruct (tv !! v); simpl; [f_equal; lia|done].
  - specialize (IH tv). cbn [uncurry].
    destruct (foldr (uncurry F) (Some tv) l) as [tv1|].
    + destruct IH as [Hpres Hval]. rewrite F_some.
      destruct (tv1 !! v0) as [x|] eqn:E1.
      * split.
        -- intros vc Hvc. apply elem_of_cons in Hvc as [->|Hvc]; [|auto].
           cbn [fst]. rewrite Hval in E1. destruct (tv !! v0); [eexists; done|discriminate].
        -- intros v. cbn [sum_list_with fst snd]. destruct (String.eqb_spec v0 v) as [->|Hne].
           ++ rewrite lookup_insert_eq. rewrite Hval in E1.
              destruct (tv !! v) as [y|]; simpl in E1 |- *; [|discriminate].
              inversion E1; subst. f_equal. lia.
           ++ rewrite lookup_insert_ne by congruence. rewrite Hval.
              destruct (tv !! v); simpl; [f_equal; lia|done].
      * exists (v0, c0). split; [left|]. cbn [fst]. rewrite Hval in E1.
        destruct (tv !! v0); [discriminate|done].
    + rewrite F_none. destruct IH as (vc & Hvc & Hn). exists vc. split; [right; exact Hvc|exact Hn].
Qed.

Lemma outer_sub (l : list (string * gmap string nat)) : forall t,
  match foldr (uncurry G) (Some t) l with
  | Some t' =>
      (forall av, av ∈ l -> is_Some (t !! av.1) /\
         forall v c, av.2 !! v = Some c -> is_Some (lookup2 t av.1 v)) /\
      (forall a, is_Some (t' !! a) <-> is_Some (t !! a)) /\
      forall a v, lookup2 t' a v = (fun x => (x - Z.of_nat (sum_list_with
          (fun av => if String.eqb av.1 a then default 0%nat (av.2 !! v) else 0%nat) l))%Z)
          <$> lookup2 t a v
  | None => exists av, av ∈ l /\ (t !! av.1 = None \/
              exists v c, av.2 !! v = Some c /\ lookup2 t av.1 v = None)
  end.
Proof.
  induction l as [|[a0 vals0] l IH]; intros t; cbn [foldr].
  - split; [intros av Hav; apply elem_of_nil in Hav; done|].
    split; [done|]. intros a v. destruct (lookup2 t a v); simpl; [f_equal; lia|done].
  - specialize (IH t). cbn [uncurry].
    destruct (foldr (uncurry G) (Some t) l) as [t1|].
    + destruct IH as (Hpres & Hdom & Hval). rewrite G_some.
      destruct (t1 !! a0) as [tv1|] eqn:E1.
      * rewrite map_fold_foldr.
        pose proof (inner_sub (map_to_list vals0) tv1) as Hin.
        assert (Hl : forall v, tv1 !! v = lookup2 t1 a0 v) by (intros v; unfold lookup2; rewrite E1; done).
        destruct (foldr (uncurry F) (Some tv1) (map_to_list vals0)) as [tv'|].
        -- destruct Hin as [Hp Hv]. split; [|split].
           ++ intros av Hav. apply elem_of_cons in Hav as [->|Hav]; [|auto].
              cbn [fst snd]. split.
              ** apply Hdom. rewrite E1. eexists; done.
              ** intros v c Hvc. apply elem_of_map_to_list in Hvc.
                 destruct (Hp (v, c) Hvc) as [y Hy]. cbn [fst] in Hy.
                 rewrite Hl, Hval in Hy. destruct (lookup2 t a0 v); [eexists; done|discriminate].
           ++ intros a. destruct (String.eqb_spec a0 a) as [->|Hne].
              ** rewrite lookup_insert_eq. split; [intros _; apply Hdom; rewrite E1; eexists; done|].
                 intros _. eexists; done.
              ** rewrite lookup_insert_ne by congruence. apply Hdom.
           ++ intros a v. unfold lookup2 at 1. cbn [sum_list_with fst snd].
              destruct (String.eqb_spec a0 a) as [->|Hne].
              ** rewrite lookup_insert_eq. cbn [mbind option_bind]. simpl. rewrite Hv, Hl, Hval.
                 rewrite (sum_map_to_list_key vals0 v (fun c => c)).
                 destruct (lookup2 t a v); simpl; [|done]. f_equal.
                 destruct (vals0 !! v); simpl; lia.
              ** rewrite lookup_insert_ne by congruence. fold (lookup2 t1 a v). rewrite Hval.
                 destruct (lookup2 t a v); simpl; [f_equal; lia|done].
        -- destruct Hin as ([v c] & Hvc & Hn). cbn [fst] in Hn.
           exists (a0, vals0). split; [left|]. right. exists v, c. split.
           ++ apply elem_of_map_to_list in Hvc. exact Hvc.
           ++ cbn [fst]. rewrite Hl, Hval in Hn. destruct (lookup2 t a0 v); [discriminate|done].
      * exists (a0, vals0). split; [left|]. left. cbn [fst].
        destruct (t !! a0) eqn:E; [|done].
        assert (H : is_Some (t1 !! a0)) by (apply Hdom; rewrite E; eexists; done).
        rewrite E1 in H. destruct H; discriminate.
    + rewrite G_none. destruct IH as (av & Hav & H). exists av. split; [right; exact Hav|exact H].
Qed.

End SubCounts.

Section VerifyCounts.

(** What [sub_counts] computes. *)
Lemma sub_counts_spec t cav :
  match sub_counts t cav with
  | Some t' =>
      (forall a vals, cav !! a = Some vals -> is_Some (t !! a) /\
         forall v c, vals !! v = Some c -> is_Some (lookup2 t a v)) /\
      (forall a, is_Some (t' !! a) <-> is_Some (t !! a)) /\
      forall a v, lookup2 t' a v = (fun x => (x - Z.of_nat (av_get cav a v))%Z) <$> lookup2 t a v
  | None => exists a vals, cav !! a = Some vals /\ (t !! a = None \/
              exists v c, vals !! v = Some c /\ lookup2 t a v = None)
  end.
Proof.
  unfold sub_counts. rewrite map_fold_foldr.
  match goal with |- context [foldr (uncurry ?g) _ _] => set (G := g) end.
  match goal with G := context [map_fold ?f _ _] |- _ => set (F := f) in G end.
  pose proof (outer_sub F (fun v c => eq_refl) (fun v c tv => eq_refl)
                G (fun a vals => eq_refl) (fun a vals t => eq_refl) (map_to_list cav) t) as H.
  destruct (foldr (uncurry G) (Some t) (map_to_list cav)) as [t'|].
  - destruct H as (Hp & Hd & Hv). split; [|split; [exact Hd|]].
    + intros a vals Hav. apply (Hp (a, vals)). apply elem_of_map_to_list. exact Hav.
    + intros a v. rewrite Hv.
      rewrite (sum_map_to_list_key cav a (fun vals => default 0 (vals !! v))). reflexivity.
  - destruct H as ([a vals] & Hin & H). exists a, vals. split; [|exact H].
    apply elem_of_map_to_list. exact Hin.
Qed.

(** Every stored pair of every child is a key of [t]. *)
Lemma fold_left_none_opt {A B} (f : A -> B -> option A) (l : list B) :
  fold_left (fun acc x => match acc with None => None | Some a => f a x end) l None = None.
Proof. induction l; simpl; auto. Qed.

Lemma sum_children_zero f cs : (forall c, c ∈ cs -> f c = 0) -> sum_children f cs = 0.
Proof.
  induction cs as [|c cs IH]; intros H; simpl; [done|].
  rewrite (H c ltac:(left)), IH; [done|]. intros x Hx. apply H. right. exact Hx.
Qed.

Lemma sum_children_ge f cs c : c ∈ cs -> f c <= sum_children f cs.
Proof.
  induction cs as [|x cs IH]; intros H; [apply elem_of_nil in H; done|].
  simpl. apply elem_of_cons in H as [->|H]; [lia|]. specialize (IH H). lia.
Qed.

Lemma verify_fold cs : forall tc0 t0,
  match fold_left (fun acc child =>
                     match acc with
                     | None => None
                     | Some (tc, t) =>
                         match sub_counts t (av_counts child) with
                         | None => None
                         | Some t' => Some ((tc - Z.of_nat (count child))%Z, t')
                         end
                     end) cs (Some (tc0, t0)) with
  | Some (tc, t) =>
      (forall c, c ∈ cs -> forall a vals, av_counts c !! a = Some vals -> is_Some (t0 !! a) /\
         forall v x, vals !! v = Some x -> is_Some (lookup2 t0 a v)) /\
      tc = (tc0 - Z.of_nat (sum_children count cs))%Z /\
      forall a v, lookup2 t a v = (fun x => (x - Z.of_nat
                     (sum_children (fun c => av_get (av_counts c) a v) cs))%Z) <$> lookup2 t0 a v
  | None =>
      ~ (forall c, c ∈ cs -> forall a vals, av_counts c !! a = Some vals -> is_Some (t0 !! a) /\
           forall v x, vals !! v = Some x -> is_Some (lookup2 t0 a v))
  end.
Proof.
  induction cs as [|c cs IH]; intros tc0 t0; cbn [fold_left].
  - split; [intros c Hc; apply elem_of_nil in Hc; done|]. cbn [sum_children fold_right].
    split; [lia|]. intros a v. destruct (lookup2 t0 a v); simpl; [f_equal; lia|done].
  - pose proof (sub_counts_spec t0 (av_counts c)) as Hs.
    destruct (sub_counts t0 (av_counts c)) as [t1|].
    + destruct Hs as (Hp & Hd & Hv). specialize (IH (tc0 - Z.of_nat (count c))%Z t1).
      assert (Hlift : forall a v, is_Some (lookup2 t1 a v) <-> is_Some (lookup2 t0 a v)).
      { intros a v. rewrite Hv. destruct (lookup2 t0 a v); simpl; split; intros [? ?]; try discriminate; eexists; done. }
      destruct (fold_left _ cs _) as [[tc t]|].
      * destruct IH as (Hp' & Htc & Hv'). split; [|split].
        -- intros x Hx a vals Hav. apply elem_of_cons in Hx as [->|Hx]; [exact (Hp a vals Hav)|].
           destruct (Hp' x Hx a vals Hav) as [H1 H2]. split; [apply Hd; exact H1|].
           intros v y Hy. apply Hlift. exact (H2 v y Hy).
        -- rewrite Htc. cbn [sum_children fold_right]. fold (sum_children count cs). lia.
        -- intros a v. rewrite Hv', Hv. cbn [sum_children fold_right].
           fold (sum_children (fun c => av_get (av_counts c) a v) cs).
           destruct (lookup2 t0 a v); simpl; [f_equal; lia|done].
      * intros Hall. apply IH. intros x Hx a vals Hav.
        destruct (Hall x ltac:(right; exact Hx) a vals Hav) as [H1 H2].
        split; [apply Hd; exact H1|]. intros v y Hy. apply Hlift. exact (H2 v y Hy).
    + rewrite fold_left_none_opt. intros Hall.
      destruct Hs as (a & vals & Hav & [Hn|(v & x & Hx & Hn)]);
        destruct (Hall c ltac:(left) a vals Hav) as [H1 H2].
      * rewrite Hn in H1. destruct H1; discriminate.
      * destruct (H2 v x Hx) as [y Hy]. rewrite Hn in Hy. discriminate.
Qed.

Lemma lookup2_temp (av : gmap string (gmap string nat)) a v :
  lookup2 (fmap (fmap (M := gmap string) Z.of_nat) av) a v = Z.of_nat <$> lookup2 av a v.
Proof.
  unfold lookup2. rewrite lookup_fmap. destruct (av !! a); simpl; [|done].
  rewrite lookup_fmap. done.
Qed.

Lemma lookup2_av_get (av : gmap string (gmap string nat)) a v :
  av_get av a v = default 0 (lookup2 av a v).
Proof. unfold av_get, lookup2. destruct (av !! a); done. Qed.

Lemma final_check_true (t : gmap string (gmap string Z)) :
  forallb (fun '(_, tv) => forallb (fun '(_, x) => Z.eqb x 0) (map_to_list tv)) (map_to_list t) = true
  <-> forall a v x, lookup2 t a v = Some x -> x = 0%Z.
Proof.
  rewrite forallb_forall. split.
  - intros H a v x Hx. unfold lookup2 in Hx.
    destruct (t !! a) as [tv|] eqn:Ea; [|discriminate]. cbn in Hx.
    apply elem_of_map_to_list, list_elem_of_In in Ea. specialize (H _ Ea). cbn in H.
    rewrite forallb_forall in H.
    apply elem_of_map_to_list, list_elem_of_In in Hx. specialize (H _ Hx). cbn in H.
    apply Z.eqb_eq. exact H.
  - intros H [a tv] Ha. apply list_elem_of_In, elem_of_map_to_list in Ha.
    apply forallb_forall. intros [v x] Hx. apply list_elem_of_In, elem_of_map_to_list in Hx.
    apply Z.eqb_eq. apply (H a v). unfold lookup2. rewrite Ha. exact Hx.
Qed.

(** [verify_node] accepts exactly the nodes whose counts are conserved,
    given that every count a child stores for a pair is positive. *)
Lemma verify_node_sound n : verify_node n = true -> counts_conserved n.
Proof.
  unfold verify_node, counts_conserved. intros H Hne.
  destruct (children n) as [|c0 cs0] eqn:Ec; [done|]. cbv beta iota zeta in H.
  pose proof (verify_fold (c0 :: cs0) (Z.of_nat (count n))
                (fmap (fmap (M := gmap string) Z.of_nat) (av_counts n))) as Hf.
  destruct (fold_left _ (c0 :: cs0) _) as [[tc t]|]; [|done].
  destruct Hf as (Hp & Htc & Hv).
  apply andb_true_iff in H as [H0 Hz]. apply Z.eqb_eq in H0.
  rewrite final_check_true in Hz. split; [lia|].
  intros a v. rewrite lookup2_av_get.
  destruct (lookup2 (av_counts n) a v) as [x|] eqn:Ex; cbn [default from_option]; try unfold id.
  - specialize (Hv a v). rewrite lookup2_temp, Ex in Hv.
    specialize (Hz a v _ Hv). cbv beta in Hz. lia.
  - symmetry. apply sum_children_zero. intros c Hc.
    rewrite lookup2_av_get. unfold lookup2.
    destruct (av_counts c !! a) as [vals|] eqn:Ea; [|done]. cbn.
    destruct (vals !! v) as [y|] eqn:Ey; [|done]. cbn.
    destruct (proj2 (Hp c Hc a vals Ea) v y Ey) as [z Hz'].
    rewrite lookup2_temp, Ex in Hz'. discriminate.
Qed.

Lemma verify_node_complete n :
  counts_conserved n -> Forall (fun c => av_ok (av_counts c)) (children n) ->
  verify_node n = true.
Proof.
  unfold verify_node, counts_conserved. intros Hcc Hok.
  destruct (children n) as [|c0 cs0] eqn:Ec; [done|]. cbv beta iota zeta.
  destruct (Hcc ltac:(discriminate)) as [Hcount Hav].
  pose proof (verify_fold (c0 :: cs0) (Z.of_nat (count n))
                (fmap (fmap (M := gmap string) Z.of_nat) (av_counts n))) as Hf.
  assert (Hpres : forall c, c ∈ c0 :: cs0 -> forall a v x, av_counts c !! a ≫= (fun vals => vals !! v) = Some x ->
             exists y, lookup2 (av_counts n) a v = Some y).
  { intros c Hc a v x Hx. rewrite Forall_forall in Hok.
    destruct (av_counts c !! a) as [vals|] eqn:Ea; [|discriminate]. cbn in Hx.
    pose proof (proj2 (Hok c Hc a vals Ea) v x Hx) as Hpos.
    assert (Hge : x <= av_get (av_counts n) a v).
    { rewrite Hav. etransitivity; [|apply (sum_children_ge _ _ c Hc)].
      unfold av_get. rewrite Ea, Hx. done. }
    rewrite lookup2_av_get in Hge. destruct (lookup2 (av_counts n) a v); [eexists; done|simpl in Hge; lia]. }
  destruct (fold_left _ (c0 :: cs0) _) as [[tc t]|].
  - destruct Hf as (_ & Htc & Hv). apply andb_true_iff. split.
    + apply Z.eqb_eq. lia.
    + apply final_check_true. intros a v x Hx. rewrite Hv, lookup2_temp in Hx.
      destruct (lookup2 (av_counts n) a v) as [y|] eqn:Ey; [|discriminate].
      simpl in Hx. inversion Hx. specialize (Hav a v). rewrite lookup2_av_get, Ey in Hav.
      simpl in Hav. lia.
  - exfalso. apply Hf. intros c Hc a vals Ea. rewrite Forall_forall in Hok.
    destruct (Hok c Hc a vals Ea) as [Hne _].
    apply map_choose in Hne as [v [x Hx]].
    destruct (Hpres c Hc a v x ltac:(rewrite Ea; exact Hx)) as [y Hy].
    split.
    + rewrite lookup_fmap. unfold lookup2 in Hy. destruct (av_counts n !! a); [eexists; done|discriminate].
    + intros v' x' Hx'. destruct (Hpres c Hc a v' x' ltac:(rewrite Ea; exact Hx')) as [y' Hy'].
      rewrite lookup2_temp, Hy'. eexists; done.
Qed.

Lemma verify_counts_all n : verify_counts n = Some tt <-> all_nodes (fun m => verify_node m = true) n.
Proof.
  induction n as [c av cs IH] using Cobweb_nested_ind.
  rewrite all_nodes_iff. cbn [verify_counts children].
  destruct (verify_node (mkNode c av cs)); [|split; [discriminate|intros [H _]; discriminate]].
  assert (Hgo : (fix go (l : list Cobweb) : option unit :=
                   match l with [] => Some tt | x :: l' => match verify_counts x with Some _ => go l' | None => None end end) cs = Some tt
                <-> Forall (all_nodes (fun m => verify_node m = true)) cs).
  { induction cs as [|x cs IHcs]; [split; [constructor|done]|].
    apply Forall_cons in IH as [Hx Hcs]. specialize (IHcs Hcs).
    destruct (verify_counts x) as [[]|] eqn:Ev.
    - rewrite IHcs, Forall_cons. split; [intros H; split; [apply Hx; reflexivity|exact H]|intros [_ H]; exact H].
    - split; [discriminate|]. intros H. apply Forall_cons in H as [H _].
      apply Hx in H. discriminate. }
  rewrite Hgo. split; [intros H; split; [reflexivity|exact H]|intros [_ H]; exact H].
Qed.

End VerifyCounts.

Section NodeLemmas.

Lemma all_nodes_children_prop (P : Cobweb -> Prop) n :
  all_nodes P n -> all_nodes (fun m => Forall P (children m)) n.
Proof.
  induction n as [c av cs IH] using Cobweb_nested_ind.
  rewrite !all_nodes_iff. cbn [children]. intros [HP HF]. split.
  - eapply Forall_impl; [exact HF|]. intros x Hx. apply all_nodes_iff in Hx. exact (proj1 Hx).
  - rewrite Forall_forall in IH, HF |- *. intros x Hx. apply IH; auto.
Qed.

Lemma all_nodes_and (P Q : Cobweb -> Prop) n :
  all_nodes P n -> all_nodes Q n -> all_nodes (fun m => P m /\ Q m) n.
Proof.
  induction n as [c av cs IH] using Cobweb_nested_ind.
  rewrite !all_nodes_iff. cbn [children]. intros [HP HF] [HQ HG]. split; [auto|].
  rewrite Forall_forall in IH, HF, HG |- *. intros x Hx. apply IH; auto.
Qed.

Lemma subtree_all_nodes (P : Cobweb -> Prop) p : forall n m,
  all_nodes P n -> subtree n p = Some m -> all_nodes P m.
Proof.
  induction p as [|i p IH]; intros n m Hn Hs; cbn [subtree] in Hs.
  - inversion Hs; subst. exact Hn.
  - destruct (children n !! i) as [c|] eqn:Ec; [|discriminate].
    apply all_nodes_iff in Hn as [_ HF]. apply (IH c); [|exact Hs].
    exact (Forall_lookup_1 _ _ _ _ HF Ec).
Qed.

Lemma concept_of_node (P : Cobweb -> Prop) t inst :
  all_nodes P t -> P (concept_of t inst).
Proof.
  intros Ht. unfold concept_of.
  destruct (subtree t (cobweb_categorize t inst)) as [m|] eqn:E; cbn [default from_option id].
  - exact (proj1 (proj1 (all_nodes_iff _ _) (subtree_all_nodes P _ t m Ht E))).
  - apply all_nodes_iff in Ht. exact (proj1 Ht).
Qed.

Lemma fit_fresh_nodes insts t :
  fit new_node insts = Some t ->
  all_nodes (fun n => node_ok n /\ av_ok (av_counts n) /\
                      forall a v, av_get (av_counts n) a v <= count n) t.
Proof.
  intros E. destruct (fit_ok insts new_node new_node_ok) as (t' & E' & Hok).
  rewrite E in E'. inversion E'; subst t'.
  eapply all_nodes_impl; [|exact (all_nodes_and _ _ _ Hok (fit_bounded insts t E))].
  intros m [H1 [H2 H3]]. auto.
Qed.

End NodeLemmas.

Section ExactMatch.

Lemma qnat_pos d : 0 < d -> (0 < qnat d)%Q.
Proof. intros Hd. unfold qnat. change 0%Q with (inject_Z 0). rewrite <- Zlt_Qlt. lia. Qed.

Lemma qeq_div_one c d : 0 < d -> Qeq_bool (qnat c / qnat d) 1 = Nat.eqb c d.
Proof.
  intros Hd. pose proof (qnat_pos d Hd) as Hq.
  assert (Hq0 : ~ (qnat d == 0)%Q) by (intros H0; rewrite H0 in Hq; apply (Qlt_irrefl 0); exact Hq).
  destruct (Nat.eqb_spec c d) as [->|Hne].
  - apply Qeq_bool_iff. field. exact Hq0.
  - apply not_true_is_false. intros H. apply Qeq_bool_iff in H. apply Hne.
    assert (Hcd : (qnat c == qnat d)%Q).
    { rewrite <- (Qmult_1_l (qnat d)). rewrite <- H. field. exact Hq0. }
    unfold qnat in Hcd. apply (proj1 (inject_Z_injective _ _)) in Hcd. lia.
Qed.

Section FoldBool.

Variable step : result bool -> string * string -> result bool.
Variable P : string * string -> bool.
Hypothesis step_false : forall x, step (Ok false) x = Ok false.
Hypothesis step_true : forall x, step (Ok true) x = Ok (P x).

Lemma fold_bool l : forall b, fold_left step l (Ok b) = Ok (b && forallb P l).
Proof.
  induction l as [|x l IH]; intros b; simpl; [rewrite andb_true_r; reflexivity|].
  destruct b; [rewrite step_true, IH; reflexivity|rewrite step_false, IH; reflexivity].
Qed.

End FoldBool.

Lemma exact_match_fold n l b : 0 < count n ->
  fold_left (fun acc '(attr, v) =>
               match acc with
               | Ok true =>
                   match av_counts n !! attr with
                   | None => Ok false
                   | Some vals =>
                       match vals !! v with
                       | None => Ok false
                       | Some c =>
                           if Nat.eqb (count n) 0 then Raise "ZeroDivisionError"
                           else if Qeq_bool (qnat c / qnat (count n)) 1 then Ok true
                           else Ok false
                       end
                   end
               | r => r
               end) l (Ok b)
  = Ok (b && forallb (fun '(a, v) => bool_decide (lookup2 (av_counts n) a v = Some (count n))) l).
Proof.
  intros Hpos. apply fold_bool; [intros [a v]; reflexivity|].
  intros [a v]. cbn beta iota. unfold lookup2.
  destruct (av_counts n !! a) as [vals|]; cbn [mbind option_bind].
  - destruct (vals !! v) as [c|].
    + replace (Nat.eqb (count n) 0) with false by (symmetry; apply Nat.eqb_neq; lia).
      rewrite qeq_div_one by exact Hpos.
      destruct (Nat.eqb_spec c (count n)) as [->|Hne].
      * rewrite bool_decide_eq_true_2 by reflexivity. reflexivity.
      * rewrite bool_decide_eq_false_2 by congruence. reflexivity.
    + rewrite bool_decide_eq_false_2 by discriminate. reflexivity.
  - rewrite bool_decide_eq_false_2 by discriminate. reflexivity.
Qed.

End ExactMatch.

Section Averages.

Lemma sum_bounds (lo hi : Q) (l : list Q) :
  Forall (fun x => lo <= x <= hi)%Q l ->
  (qnat (length l) * lo <= fold_right Qplus 0 l <= qnat (length l) * hi)%Q.
Proof.
  induction l as [|x l IH]; intros H; cbn [fold_right length].
  - change (qnat 0) with 0%Q. split; lra.
  - apply Forall_cons in H as [[H1 H2] H]. destruct (IH H) as [IH1 IH2].
    unfold qnat in *. rewrite Nat2Z.inj_succ, <- Z.add_1_r, inject_Z_plus.
    change (inject_Z 1) with 1%Q. split; lra.
Qed.

Lemma average_bounds (lo hi : Q) (l : list Q) :
  l <> [] -> Forall (fun x => lo <= x <= hi)%Q l ->
  (lo <= fold_right Qplus 0 l / qnat (length l) <= hi)%Q.
Proof.
  intros Hne H. destruct (sum_bounds lo hi l H) as [H1 H2].
  assert (Hpos : (0 < qnat (length l))%Q) by (apply qnat_pos; destruct l; [done|simpl; lia]).
  split.
  - apply Qle_shift_div_l; [exact Hpos|]. rewrite Qmult_comm. exact H1.
  - apply Qle_shift_div_r; [exact Hpos|]. rewrite Qmult_comm. exact H2.
Qed.

End Averages.

Section SortSorted.

Context {A : Type} (lt : A -> A -> bool) (le : A -> A -> Prop).
Hypothesis lt_le : forall x y, lt y x = true -> le y x.
Hypothesis nlt_le : forall x y, lt y x = false -> le x y.
Hypothesis le_trans' : forall x y z, le x y -> le y z -> le x z.

(** [sort_desc] returns a list in which no element is below a later one. *)
Lemma insert_desc_sorted x l :
  StronglySorted (fun a b => le b a) l -> StronglySorted (fun a b => le b a) (insert_desc lt x l).
Proof.
  induction l as [|y l IH]; intros Hs; simpl.
  - repeat constructor.
  - apply StronglySorted_inv in Hs as [Hs Hy].
    destruct (lt y x) eqn:E.
    + constructor; [constructor; assumption|]. constructor; [apply lt_le; exact E|].
      eapply List.Forall_impl; [|exact Hy]. intros z Hz. exact (le_trans' z y x Hz (lt_le x y E)).
    + constructor; [apply IH; exact Hs|].
      apply Forall_forall. intros z Hz.
      rewrite insert_desc_perm in Hz. apply elem_of_cons in Hz as [->|Hz].
      * apply nlt_le. exact E.
      * rewrite Forall_forall in Hy. apply Hy. exact Hz.
Qed.

Lemma sort_desc_sorted l : StronglySorted (fun a b => le b a) (sort_desc lt l).
Proof.
  unfold sort_desc.
  assert (H : forall acc, StronglySorted (fun a b => le b a) acc ->
            StronglySorted (fun a b => le b a) (fold_left (fun acc x => insert_desc lt x acc) l acc)).
  { induction l as [|x l IH]; intros acc Hacc; simpl; [exact Hacc|].
    apply IH. apply insert_desc_sorted. exact Hacc. }
  apply H. constructor.
Qed.

End SortSorted.

Section Predict.

Variable choice : list string -> string.
Hypothesis choice_in : forall l, l <> [] -> choice l ∈ l.

Lemma values_elem (vals : gmap string nat) w :
  w ∈ concat (map (fun '(val, c) => repeat val c) (map_to_list vals)) ->
  exists c, vals !! w = Some c /\ 0 < c.
Proof.
  intros H. apply list_elem_of_In, in_concat in H as (l' & Hl' & Hw).
  apply in_map_iff in Hl' as ([val c] & <- & Hin).
  apply list_elem_of_In, elem_of_map_to_list in Hin.
  destruct c as [|c]; [simpl in Hw; done|].
  apply repeat_spec in Hw as ->. exists (S c). split; [exact Hin|lia].
Qed.

Lemma values_nonempty (vals : gmap string nat) :
  vals <> ∅ -> (forall v c, vals !! v = Some c -> 0 < c) ->
  concat (map (fun '(val, c) => repeat val c) (map_to_list vals)) <> [].
Proof.
  intros Hne Hpos Hnil. apply map_choose in Hne as (v & c & Hv).
  specialize (Hpos v c Hv).
  assert (Hin : In v (concat (map (fun '(val, c) => repeat val c) (map_to_list vals)))).
  { apply in_concat. exists (repeat v c). split.
    - apply in_map_iff. exists (v, c). split; [reflexivity|].
      apply list_elem_of_In, elem_of_map_to_list. exact Hv.
    - destruct c as [|c]; [lia|]. left. reflexivity. }
  rewrite Hnil in Hin. exact Hin.
Qed.

Lemma predict_fold (inst : instance) (av : gmap string (gmap string nat)) l :
  av_ok av -> (forall kv, kv ∈ l -> av !! kv.1 = Some kv.2) ->
  exists p, foldr (uncurry (fun attr vals acc =>
              match acc with
              | Raise m => Raise m
              | Ok prediction =>
                  if bool_decide (is_Some (prediction !! attr)) then Ok prediction
                  else
                    match concat (map (fun '(val, c) => repeat val c) (map_to_list vals)) with
                    | [] => Raise "IndexError"
                    | values => Ok (<[attr := choice values]> prediction)
                    end
              end)) (Ok inst) l = Ok p /\
    (forall a v, inst !! a = Some v -> p !! a = Some v) /\
    (forall a v, p !! a = Some v -> inst !! a = Some v \/ (inst !! a = None /\ 0 < av_get av a v)) /\
    (forall kv, kv ∈ l -> is_Some (p !! kv.1)).
Proof.
  intros Hok. induction l as [|[a0 vals0] l IH]; intros Hl; cbn [foldr].
  - exists inst. split; [reflexivity|]. split; [auto|]. split; [auto|].
    intros kv H. apply elem_of_nil in H. done.
  - destruct IH as (p1 & E1 & HA & HB & HC); [intros kv H; apply Hl; right; exact H|].
    rewrite E1. cbn [uncurry].
    assert (Ha0 : av !! a0 = Some vals0) by exact (Hl (a0, vals0) ltac:(left)).
    destruct (bool_decide (is_Some (p1 !! a0))) eqn:Eb.
    + apply bool_decide_eq_true_1 in Eb. exists p1. split; [reflexivity|]. split; [exact HA|].
      split; [exact HB|]. intros kv H. apply elem_of_cons in H as [->|H]; [exact Eb|auto].
    + apply bool_decide_eq_false_1 in Eb.
      destruct (Hok a0 vals0 Ha0) as [Hne Hpos].
      pose proof (values_nonempty vals0 Hne Hpos) as Hv.
      destruct (concat (map (fun '(val, c) => repeat val c) (map_to_list vals0))) as [|w ws] eqn:Ev;
        [done|].
      assert (Hp0 : p1 !! a0 = None) by (destruct (p1 !! a0); [exfalso; apply Eb; eexists; done|done]).
      exists (<[a0 := choice (w :: ws)]> p1). split; [reflexivity|]. split; [|split].
      * intros a v Hav. destruct (String.eqb_spec a0 a) as [->|Hne'].
        -- rewrite (HA a v Hav) in Hp0. discriminate.
        -- rewrite lookup_insert_ne by congruence. exact (HA a v Hav).
      * intros a v Hav. destruct (String.eqb_spec a0 a) as [->|Hne'].
        -- rewrite lookup_insert_eq in Hav. inversion Hav; subst v. right. split.
           ++ destruct (inst !! a) as [u|] eqn:Eu; [|done].
              rewrite (HA a u Eu) in Hp0. discriminate.
           ++ assert (Hin : choice (w :: ws) ∈ w :: ws) by (apply choice_in; discriminate).
              destruct (values_elem vals0 (choice (w :: ws)) ltac:(rewrite Ev; exact Hin))
                as (c & Hc & Hcpos).
              unfold av_get. rewrite Ha0, Hc. exact Hcpos.
        -- rewrite lookup_insert_ne in Hav by congruence. exact (HB a v Hav).
      * intros kv H. apply elem_of_cons in H as [->|H].
        -- cbn [fst]. rewrite lookup_insert_eq. eexists; done.
        -- destruct (String.eqb_spec a0 kv.1) as [Heq|Hne'].
           ++ rewrite Heq, lookup_insert_eq. eexists; done.
           ++ rewrite lookup_insert_ne by exact Hne'. exact (HC kv H).
Qed.

Lemma predict_spec t inst :
  av_ok (av_counts (concept_of t inst)) ->
  exists p, predict choice t inst = Ok p /\
    (forall a v, inst !! a = Some v -> p !! a = Some v) /\
    (forall a v, p !! a = Some v -> inst !! a = Some v \/
       (inst !! a = None /\ 0 < av_get (av_counts (concept_of t inst)) a v)) /\
    (forall a, is_Some (av_counts (concept_of t inst) !! a) -> is_Some (p !! a)).
Proof.
  intros Hok. unfold predict. rewrite map_fold_foldr.
  destruct (predict_fold inst (av_counts (concept_of t inst)) (map_to_list (av_counts (concept_of t inst))) Hok)
    as (p & E & HA & HB & HC).
  { intros [a vals] H. apply elem_of_map_to_list in H. exact H. }
  exists p. split; [exact E|]. split; [exact HA|]. split; [exact HB|].
  intros a [vals Ha]. apply (HC (a, vals)). apply elem_of_map_to_list. exact Ha.
Qed.

End Predict.

Section Flexible.

Lemma flexible_prediction_bounds t inst guessing :
  all_nodes (fun n => forall a v, (0 <= get_probability n a v <= 1)%Q) t ->
  inst <> ∅ ->
  exists q, flexible_prediction t inst guessing = Ok q /\ (0 <= q <= 1)%Q.
Proof.
  intros Ht Hne. unfold flexible_prediction.
  set (probs := map _ (map_to_list inst)).
  assert (Hl : probs <> []).
  { unfold probs. intros H. apply map_eq_nil in H. apply map_to_list_empty_iff in H. done. }
  destruct (Nat.eqb_spec (length probs) 0) as [H0|H0].
  { apply length_zero_iff_nil in H0. done. }
  eexists. split; [reflexivity|]. apply average_bounds; [exact Hl|].
  unfold probs. apply Forall_forall. intros q Hq.
  apply list_elem_of_In, in_map_iff in Hq as ([a v] & <- & _).
  destruct guessing.
  - apply all_nodes_iff in Ht. apply (proj1 Ht).
  - unfold concept_attr_value. apply (concept_of_node (fun n => forall a v, (0 <= get_probability n a v <= 1)%Q)).
    exact Ht.
Qed.

End Flexible.

Section Copy.

Lemma av_ext (av1 av2 : gmap string (gmap string nat)) :
  av_ok av1 -> av_ok av2 -> (forall a v, av_get av1 a v = av_get av2 a v) -> av1 = av2.
Proof.
  intros H1 H2 Heq. apply map_eq. intros a.
  destruct (av1 !! a) as [v1|] eqn:E1, (av2 !! a) as [v2|] eqn:E2.
  - f_equal. apply map_eq. intros v. specialize (Heq a v). unfold av_get in Heq.
    rewrite E1, E2 in Heq.
    pose proof (proj2 (H1 a v1 E1) v) as P1. pose proof (proj2 (H2 a v2 E2) v) as P2.
    destruct (v1 !! v) as [c1|], (v2 !! v) as [c2|]; cbn in Heq.
    + congruence.
    + specialize (P1 c1 eq_refl). lia.
    + specialize (P2 c2 eq_refl). lia.
    + reflexivity.
  - destruct (H1 a v1 E1) as [Hne Hpos]. apply map_choose in Hne as (v & c & Hv).
    specialize (Hpos v c Hv). specialize (Heq a v). unfold av_get in Heq.
    rewrite E1, E2, Hv in Heq. cbn in Heq. lia.
  - destruct (H2 a v2 E2) as [Hne Hpos]. apply map_choose in Hne as (v & c & Hv).
    specialize (Hpos v c Hv). specialize (Heq a v). unfold av_get in Heq.
    rewrite E1, E2, Hv in Heq. cbn in Heq. lia.
  - reflexivity.
Qed.

(** Copying the counts of a node into a fresh node keeps them. *)
Lemma update_new_node_av n :
  av_ok (av_counts n) -> av_counts (update_counts_from_node new_node n) = av_counts n.
Proof.
  intros Hok. apply av_ext; [apply av_ok_update; [apply av_ok_empty|exact Hok]|exact Hok|].
  intros a v. rewrite av_get_update. reflexivity.
Qed.

Lemma copy_node_id t : all_nodes (fun n => av_ok (av_counts n)) t -> copy_node t = t.
Proof.
  induction t as [c av cs IH] using Cobweb_nested_ind.
  intros Ht. apply all_nodes_iff in Ht as [Hok HF]. cbn [children av_counts] in Hok, HF.
  cbn [copy_node]. rewrite (update_new_node_av (mkNode c av [])) by exact Hok.
  cbn [count av_counts]. f_equal.
  induction cs as [|x cs IHcs]; [reflexivity|].
  apply Forall_cons in IH as [Hx IH]. apply Forall_cons in HF as [Hfx HF].
  cbn [map]. rewrite (Hx Hfx), (IHcs IH HF). reflexivity.
Qed.

End Copy.

Section ChoiceSecond.

Lemma two_best_children_second_max n inst :
  children n <> [] ->
  exists b1 ob2, two_best_children n inst = Ok (b1, ob2) /\
    (ob2 = None <-> length (children n) = 1) /\
    forall b2, ob2 = Some b2 -> forall j, j < length (children n) -> j <> b1.2 ->
      (cu_for_insert n j inst <= b2.1)%Q.
Proof.
  intros Hne. unfold two_best_children.
  destruct (children n) as [|c cs] eqn:Ec; [done|].
  set (L := imap (fun k _ => (cu_for_insert n k inst, k)) (c :: cs)).
  pose proof (sort_desc_perm (fun y x => Qltb (fst y) (fst x)) L) as Hperm.
  pose proof (sort_desc_sorted (fun y x : Q * nat => Qltb (fst y) (fst x))
                (fun y x : Q * nat => (y.1 <= x.1)%Q)
                (fun x y E => Qlt_le_weak _ _ (Qltb_true _ _ E))
                (fun x y E => Qltb_false _ _ E)
                (fun x y z H1 H2 => Qle_trans _ _ _ H1 H2) L) as Hs.
  assert (HlenL : length L = length (c :: cs)) by (unfold L; apply length_imap).
  assert (HL : forall j, j < length (c :: cs) -> (cu_for_insert n j inst, j) ∈ L).
  { intros j Hj. apply lookup_lt_is_Some_2 in Hj as [cj Hcj].
    apply list_elem_of_lookup_2 with j. unfold L. rewrite list_lookup_imap, Hcj. done. }
  apply Permutation_length in Hperm as Hlen.
  destruct (sort_desc _ L) as [|x [|y rest]] eqn:Es.
  - cbn [length] in Hlen. rewrite HlenL in Hlen. discriminate.
  - exists x, None. split; [reflexivity|]. split.
    + cbn [length] in Hlen. rewrite HlenL in Hlen. split; [intros _; lia|reflexivity].
    + intros b2 Hb. discriminate.
  - exists x, (Some y). split; [reflexivity|]. split.
    + cbn [length] in Hlen. rewrite HlenL in Hlen. split; [discriminate|intros H; lia].
    + intros b2 [= <-] j Hj Hjx.
      assert (Hin : (cu_for_insert n j inst, j) ∈ x :: y :: rest) by (rewrite Hperm; apply HL; exact Hj).
      apply elem_of_cons in Hin as [Hx|Hin]; [subst x; exfalso; apply Hjx; reflexivity|].
      apply StronglySorted_inv in Hs as [Hs _]. apply StronglySorted_inv in Hs as [_ Hy].
      apply elem_of_cons in Hin as [Hy'|Hin]; [subst y; apply Qle_refl|].
      rewrite Forall_forall in Hy. exact (Hy _ Hin).
Qed.

End ChoiceSecond.

Section ShallowCopy.

Lemma shallow_copy_eq n :
  av_ok (av_counts n) -> Forall (fun c => av_ok (av_counts c)) (children n) ->
  shallow_copy n = mkNode (count n) (av_counts n)
                     (map (fun c => mkNode (count c) (av_counts c) []) (children n)).
Proof.
  intros Hok HF. unfold shallow_copy, with_children.
  rewrite update_new_node_av by exact Hok. cbn [count update_counts_from_node]. f_equal.
  induction (children n) as [|c cs IH]; [reflexivity|].
  apply Forall_cons in HF as [Hc HF]. cbn [map]. rewrite (IH HF). f_equal.
  unfold update_counts_from_node at 1. f_equal. exact (update_new_node_av c Hc).
Qed.

End ShallowCopy.

Section ExtraLemmas.

Lemma fit_total t insts : exists t', fit t insts = Some t'.
Proof.
  revert t. induction insts as [|inst insts IH]; intros t; simpl; [eauto|].
  destruct (ifit_total t inst) as [[t1 p] E]. rewrite E. apply IH.
Qed.

End ExtraLemmas.


Lemma av_ok_singleton (a v : string) (c : nat) :
  0 < c -> av_ok {[ a := {[ v := c ]} ]}.
Proof.
  intros Hc attr vals H. apply lookup_singleton_Some in H as [_ <-].
  split; [apply map_non_empty_singleton|].
  intros val c' Hv. apply lookup_singleton_Some in Hv as [_ <-]. exact Hc.
Qed.

Module Extras.

(** X1: at every node of a tree built by [fit] from a fresh tree, every
    [get_probability(attr, val)] lies between 0 and 1. *)
Theorem fit_probability_bounds (insts : list instance) :
  exists t, fit new_node insts = Some t /\
    all_nodes (fun n => forall a v, (0 <= get_probability n a v <= 1)%Q) t.
Proof.
  destruct (fit_total new_node insts) as [t E]. exists t. split; [exact E|].
  eapply all_nodes_impl; [|exact (fit_bounded insts t E)].
  intros n [_ Hle] a v. destruct (get_probability_av_get n a v) as [->|[-> _]].
  - apply qnat_le_div. apply Hle.
  - split; vm_compute; intros H; discriminate H.
Qed.




(** X5: [get_best_operation] returns one of the candidates it builds:
    [best] with [best1]'s utility, [new] with [cu_for_new_child], [merge]
    with [cu_for_merge] only when the node has more than two children and
    there is a [best2], and [split] with [cu_for_split] only when [best1]
    has children. *)
Theorem get_best_operation_choices n inst cu1 i b2 :
  get_best_operation n inst (cu1, i) b2 = (cu1, "best"%string) \/
  get_best_operation n inst (cu1, i) b2 = (cu_for_new_child n inst, "new"%string) \/
  (2 < length (children n) /\ exists cu2 j, b2 = Some (cu2, j) /\
     get_best_operation n inst (cu1, i) b2 = (cu_for_merge n i j inst, "merge"%string)) \/
  (0 < length (children (child_at n i)) /\
     get_best_operation n inst (cu1, i) b2 = (cu_for_split n i, "split"%string)).
Proof.
  pose proof (get_best_operation_in n inst (cu1, i) b2) as H.
  destruct (get_best_operation n inst (cu1, i) b2) as [q op].
  unfold candidate_operations in H.
  apply elem_of_app in H as [H|H].
  { apply elem_of_cons in H as [H|H]; [inversion H; auto|].
    apply elem_of_cons in H as [H|H]; [inversion H; auto|].
    apply elem_of_nil in H. done. }
  apply elem_of_app in H as [H|H].
  - destruct b2 as [[cu2 j]|]; [|apply elem_of_nil in H; done].
    destruct (Nat.ltb_spec 2 (length (children n))); [|apply elem_of_nil in H; done].
    apply elem_of_cons in H as [H|H]; [|apply elem_of_nil in H; done].
    inversion H; subst. right; right; left. eauto 6.
  - destruct (Nat.ltb_spec 0 (length (children (child_at n i)))); [|apply elem_of_nil in H; done].
    apply elem_of_cons in H as [H|H]; [|apply elem_of_nil in H; done].
    inversion H; subst. right; right; right. auto.
Qed.

(** X6: when [verify_counts] returns normally, every node with children
    has the sum of its children's [count] and, for every attribute/value
    pair, the sum of their counts for the pair. *)
Theorem verify_counts_sound (t : Cobweb) (H : verify_counts t = Some tt) :
  all_nodes counts_conserved t.
Proof.
  apply verify_counts_all in H. eapply all_nodes_impl; [|exact H].
  intros m Hm. exact (verify_node_sound m Hm).
Qed.


(** X8: [verify_counts] returns normally (raises nothing) on every tree
    built by [fit] from a fresh tree. *)
Theorem fit_verify_counts (insts : list instance) :
  exists t, fit new_node insts = Some t /\ verify_counts t = Some tt.
Proof.
  destruct (fit_total new_node insts) as [t E]. exists t. split; [exact E|].
  pose proof (fit_fresh_nodes insts t E) as Hn.
  apply verify_counts_all.
  eapply all_nodes_impl; [|exact (all_nodes_and _ _ _ Hn
     (all_nodes_children_prop (fun n => av_ok (av_counts n)) t
        (all_nodes_impl _ _ t (fun m H => proj1 (proj2 H)) Hn)))].
  intros m [[[Hcc _] _] Hch]. exact (verify_node_complete m Hcc Hch).
Qed.

(** X9: on a node with a positive [count], [exact_match] raises nothing
    and returns [True] exactly when every attribute/value pair of the
    instance is stored with a count equal to the node's [count] and every
    stored attribute is an attribute of the instance. *)
Theorem exact_match_spec (n : Cobweb) (inst : instance) (Hpos : 0 < count n) :
  exists b, exact_match n inst = Ok b /\
    (b = true <-> (forall a v, inst !! a = Some v -> lookup2 (av_counts n) a v = Some (count n)) /\
                  (forall a, is_Some (av_counts n !! a) -> is_Some (inst !! a))).
Proof.
  unfold exact_match. rewrite (exact_match_fold n (map_to_list inst) true Hpos). cbn [andb].
  set (b1 := forallb _ (map_to_list inst)).
  assert (H1 : b1 = true <-> forall a v, inst !! a = Some v -> lookup2 (av_counts n) a v = Some (count n)).
  { unfold b1. rewrite forallb_forall. split.
    - intros H a v Hav. apply elem_of_map_to_list, list_elem_of_In in Hav.
      specialize (H _ Hav). cbn in H. apply bool_decide_eq_true_1 in H. exact H.
    - intros H [a v] Hin. apply list_elem_of_In, elem_of_map_to_list in Hin.
      apply bool_decide_eq_true_2. exact (H a v Hin). }
  set (b2 := forallb _ (map_to_list (av_counts n))).
  assert (H2 : b2 = true <-> forall a, is_Some (av_counts n !! a) -> is_Some (inst !! a)).
  { unfold b2. rewrite forallb_forall. split.
    - intros H a [vals Ha]. apply elem_of_map_to_list, list_elem_of_In in Ha.
      specialize (H _ Ha). cbn in H. apply bool_decide_eq_true_1 in H. exact H.
    - intros H [a vals] Hin. apply list_elem_of_In, elem_of_map_to_list in Hin.
      apply bool_decide_eq_true_2. apply H. eexists; exact Hin. }
  destruct b1 eqn:Eb1.
  - exists b2. split; [reflexivity|]. rewrite H2. split; [intros H; split; [apply H1; reflexivity|exact H]|].
    intros [_ H]. exact H.
  - exists false. split; [reflexivity|]. split; [discriminate|]. intros [H _].
    apply H1 in H. discriminate.
Qed.


(** X11: on a node with children, [two_best_children] returns no second
    pair exactly when the node has one child; a second pair is another
    child with its [cu_for_insert], and every child other than the first
    has a [cu_for_insert] no greater than the second's. *)
Theorem two_best_children_second (n : Cobweb) (inst : instance) (Hne : children n <> []) :
  exists b1 ob2, two_best_children n inst = Ok (b1, ob2) /\
    (ob2 = None <-> length (children n) = 1) /\
    forall b2, ob2 = Some b2 ->
      b2.2 < length (children n) /\ b2.2 <> b1.2 /\ b2.1 = cu_for_insert n b2.2 inst /\
      forall j, j < length (children n) -> j <> b1.2 -> (cu_for_insert n j inst <= b2.1)%Q.
Proof.
  destruct (two_best_children_second_max n inst Hne) as (b1 & ob2 & E & Hnone & Hmax).
  exists b1, ob2. split; [exact E|]. split; [exact Hnone|].
  intros b2 Hb2. destruct (two_best_children_ok _ _ _ _ E) as (_ & _ & Hok).
  destruct (Hok b2 Hb2) as (H1 & H2 & H3). split; [exact H1|]. split; [exact H3|].
  split; [exact H2|]. exact (Hmax b2 Hb2).
Qed.

(** X12: on a tree built by [fit] from a fresh tree, and for a [choice]
    that picks an element of any nonempty list, [predict] raises nothing,
    keeps every attribute/value pair of the instance, predicts every
    attribute the categorized concept stores, and only predicts, for an
    attribute the instance lacks, a value the concept has counted. *)
Theorem predict_on_fit_tree (choice : list string -> string)
    (Hchoice : forall l, l <> [] -> choice l ∈ l) (insts : list instance) (inst : instance) :
  exists t p, fit new_node insts = Some t /\ predict choice t inst = Ok p /\
    (forall a v, inst !! a = Some v -> p !! a = Some v) /\
    (forall a v, p !! a = Some v -> inst !! a = Some v \/
       (inst !! a = None /\ 0 < av_get (av_counts (concept_of t inst)) a v)) /\
    (forall a, is_Some (av_counts (concept_of t inst) !! a) -> is_Some (p !! a)).
Proof.
  destruct (fit_total new_node insts) as [t E].
  pose proof (fit_fresh_nodes insts t E) as Hn.
  assert (Hok : av_ok (av_counts (concept_of t inst))).
  { apply (concept_of_node (fun n => av_ok (av_counts n))).
    exact (all_nodes_impl _ _ t (fun m H => proj1 (proj2 H)) Hn). }
  destruct (predict_spec choice Hchoice t inst Hok) as (p & Ep & HA & HB & HC).
  exists t, p. auto.
Qed.

(** X13: [flexible_prediction] raises [ZeroDivisionError] on an empty
    instance; on a tree built by [fit] from a fresh tree and a nonempty
    instance it returns a value between 0 and 1. *)
Theorem flexible_prediction_on_fit_tree (insts : list instance) (inst : instance) (guessing : bool) :
  exists t, fit new_node insts = Some t /\
    ((inst = ∅ /\ flexible_prediction t inst guessing = Raise "ZeroDivisionError") \/
     (inst <> ∅ /\ exists q, flexible_prediction t inst guessing = Ok q /\ (0 <= q <= 1)%Q)).
Proof.
  destruct (fit_total new_node insts) as [t E]. exists t. split; [exact E|].
  destruct (decide (inst = ∅)) as [->|Hne].
  - left. split; [reflexivity|]. unfold flexible_prediction. rewrite map_to_list_empty. reflexivity.
  - right. split; [exact Hne|]. apply flexible_prediction_bounds; [|exact Hne].
    eapply all_nodes_impl; [|exact (fit_bounded insts t E)].
    intros n [_ Hle] a v. destruct (get_probability_av_get n a v) as [->|[-> _]].
    + apply qnat_le_div. apply Hle.
    + split; vm_compute; intros H; discriminate H.
Qed.

(** X14: the copy constructor reproduces a tree whose nodes store only
    nonempty inner dicts of positive counts (every tree built by [fit]
    from a fresh tree is one). *)
Theorem copy_node_identity (t : Cobweb) (Hok : all_nodes (fun n => av_ok (av_counts n)) t) :
  copy_node t = t.
Proof. exact (copy_node_id t Hok). Qed.

(** X15: [shallow_copy] of a node whose own and children's inner dicts
    are nonempty with positive counts has the node's statistics and, as
    children, childless nodes with the children's statistics. *)
Theorem shallow_copy_spec (n : Cobweb) (Hok : av_ok (av_counts n))
    (Hch : Forall (fun c => av_ok (av_counts c)) (children n)) :
  shallow_copy n = mkNode (count n) (av_counts n)
                     (map (fun c => mkNode (count c) (av_counts c) []) (children n)).
Proof. exact (shallow_copy_eq n Hok Hch). Qed.

(** ** Instances at concrete inputs *)


Lemma verify_counts_sound_witness :
  verify_counts tie_node = Some tt /\ all_nodes counts_conserved tie_node.
Proof.
  assert (H : verify_counts tie_node = Some tt) by (vm_compute; reflexivity).
  split; [exact H|]. exact (verify_counts_sound tie_node H).
Defined.


Lemma exact_match_spec_witness :
  0 < count red_leaf /\
  exists b, exact_match red_leaf red_inst = Ok b /\
    (b = true <-> (forall a v, red_inst !! a = Some v -> lookup2 (av_counts red_leaf) a v = Some (count red_leaf)) /\
                  (forall a, is_Some (av_counts red_leaf !! a) -> is_Some (red_inst !! a))).
Proof.
  assert (H : 0 < count red_leaf) by (vm_compute; lia).
  split; [exact H|]. exact (exact_match_spec red_leaf red_inst H).
Defined.


Lemma two_best_children_second_witness :
  children tie_node <> [] /\
  exists b1 ob2, two_best_children tie_node red_inst = Ok (b1, ob2) /\
    (ob2 = None <-> length (children tie_node) = 1) /\
    forall b2, ob2 = Some b2 ->
      b2.2 < length (children tie_node) /\ b2.2 <> b1.2 /\ b2.1 = cu_for_insert tie_node b2.2 red_inst /\
      forall j, j < length (children tie_node) -> j <> b1.2 -> (cu_for_insert tie_node j red_inst <= b2.1)%Q.
Proof.
  assert (H : children tie_node <> []) by discriminate.
  split; [exact H|]. exact (two_best_children_second tie_node red_inst H).
Defined.

Lemma predict_on_fit_tree_witness :
  (forall l : list string, l <> [] -> hd ""%string l ∈ l) /\
  exists t p, fit new_node [red_inst; blue_inst] = Some t /\
    predict (hd ""%string) t ∅ = Ok p /\
    (forall a v, (∅ : instance) !! a = Some v -> p !! a = Some v) /\
    (forall a v, p !! a = Some v -> (∅ : instance) !! a = Some v \/
       ((∅ : instance) !! a = None /\ 0 < av_get (av_counts (concept_of t ∅)) a v)) /\
    (forall a, is_Some (av_counts (concept_of t ∅) !! a) -> is_Some (p !! a)).
Proof.
  assert (H : forall l : list string, l <> [] -> hd ""%string l ∈ l)
    by (intros [|x l] Hl; [congruence|left]).
  split; [exact H|]. exact (predict_on_fit_tree (hd ""%string) H [red_inst; blue_inst] ∅).
Defined.

Lemma copy_node_identity_witness :
  all_nodes (fun n => av_ok (av_counts n)) red_leaf /\ copy_node red_leaf = red_leaf.
Proof.
  assert (H : all_nodes (fun n => av_ok (av_counts n)) red_leaf).
  { apply (all_nodes_leaf _ red_leaf); [reflexivity|]. apply av_ok_singleton; lia. }
  split; [exact H|]. exact (copy_node_identity red_leaf H).
Defined.

Lemma shallow_copy_spec_witness :
  av_ok (av_counts tie_node) /\ Forall (fun c => av_ok (av_counts c)) (children tie_node) /\
  shallow_copy tie_node = mkNode (count tie_node) (av_counts tie_node)
    (map (fun c => mkNode (count c) (av_counts c) []) (children tie_node)).
Proof.
  assert (H1 : av_ok (av_counts tie_node)) by (apply av_ok_singleton; lia).
  assert (H2 : Forall (fun c => av_ok (av_counts c)) (children tie_node))
    by (constructor; [|constructor; [|constructor]]; apply av_ok_singleton; lia).
  split; [exact H1|]. split; [exact H2|]. exact (shallow_copy_spec tie_node H1 H2).
Defined.

End Extras.
